(** * Snake_Game.py: the simulation core of [SnakeGame]

    A shallow embedding of the state-changing methods of the class
    [SnakeGame] (Snake_Game.py): [__init__], [reset], [change_direction],
    [place_food], [tick], [on_game_over], [on_restart].

    The Tk widgets (canvas, labels, key bindings) and the [after] timer are
    the view and the scheduler of the game; they do not feed back into the
    attributes modelled here and are left out.  The value of the [IntVar]
    [score_var] is the field [score].  [random.choice] draws its index from
    an explicit argument [r].

    The module [Gui] then puts the canvas, the pending [after] calls and
    the key bindings back: [redraw], [_draw_cell], [bind_keys] and the full
    [tick], [reset], [on_game_over], [on_restart] and constructor, with the
    event loop as a sequence of key presses and timer expiries. *)

From Stdlib Require Import String DecimalString ZArith List Bool Lia FinFun.
From Stdlib Require Import Floats.SpecFloat.
Import ListNotations.
Open Scope Z_scope.

(** The exceptions that the modelled statements can raise. *)
Inductive exn : Type :=
| IndexError
| ZeroDivisionError
| OverflowError
| ValueError.

(** ** Python floats

    [float] is IEEE 754 binary64.  The three float operations of the program
    sit in [int(self.speed * 0.95)]: the conversion of an [int] operand, the
    product, and the truncation [int(...)]. *)
Module Float64.

Definition prec : Z := 53.
Definition emax : Z := 1024.

(** The literal [0.95]: the double nearest to 95/100. *)
Definition lit_0_95 : spec_float :=
  S754_finite false 8556839292003942 (-53).

(** [int] to [float], rounding to nearest even; an int beyond the largest
    double raises OverflowError (int too large to convert to float). *)
Definition of_int (n : Z) : exn + spec_float :=
  match binary_normalize prec emax n 0 false with
  | S754_infinity _ => inl OverflowError
  | S754_nan => inl OverflowError
  | f => inr f
  end.

Definition mul (x y : spec_float) : spec_float := SFmul prec emax x y.

(** [int(f)]: truncation toward zero; OverflowError on an infinity,
    ValueError on NaN. *)
Definition to_int (f : spec_float) : exn + Z :=
  match f with
  | S754_zero _ => inr 0
  | S754_finite s m e =>
      inr (cond_Zopp s (if 0 <=? e then Zpos m * 2 ^ e
                        else Zpos m / 2 ^ (- e)))
  | S754_infinity _ => inl OverflowError
  | S754_nan => inl ValueError
  end.

End Float64.

(** ** Data *)

(** [Cell = Tuple[int, int]]; directions are cells too. *)
Definition Cell : Type := (Z * Z)%type.

Definition cell_eqb (a b : Cell) : bool :=
  (fst a =? fst b) && (snd a =? snd b).

(** [c in l] on a list of cells. *)
Definition cell_in (c : Cell) (l : list Cell) : bool :=
  existsb (cell_eqb c) l.
Arguments cell_in : simpl never.

(** [range(n)] *)
Definition range (n : Z) : list Z :=
  map Z.of_nat (seq 0 (Z.to_nat n)).

(** The attributes of a [SnakeGame] object that the simulation reads and
    writes. *)
Record SnakeGame : Type := mkGame {
  cols : Z;
  rows : Z;
  snake : list Cell;
  direction : Cell;
  next_direction : Cell;
  food : option Cell;
  game_over : bool;
  speed : Z;
  score : Z
}.

Definition set_snake (v : list Cell) (g : SnakeGame) : SnakeGame :=
  mkGame (cols g) (rows g) v (direction g) (next_direction g) (food g)
         (game_over g) (speed g) (score g).
Definition set_direction (v : Cell) (g : SnakeGame) : SnakeGame :=
  mkGame (cols g) (rows g) (snake g) v (next_direction g) (food g)
         (game_over g) (speed g) (score g).
Definition set_next_direction (v : Cell) (g : SnakeGame) : SnakeGame :=
  mkGame (cols g) (rows g) (snake g) (direction g) v (food g)
         (game_over g) (speed g) (score g).
Definition set_food (v : option Cell) (g : SnakeGame) : SnakeGame :=
  mkGame (cols g) (rows g) (snake g) (direction g) (next_direction g) v
         (game_over g) (speed g) (score g).
Definition set_game_over (v : bool) (g : SnakeGame) : SnakeGame :=
  mkGame (cols g) (rows g) (snake g) (direction g) (next_direction g) (food g)
         v (speed g) (score g).
Definition set_speed (v : Z) (g : SnakeGame) : SnakeGame :=
  mkGame (cols g) (rows g) (snake g) (direction g) (next_direction g) (food g)
         (game_over g) v (score g).
Definition set_score (v : Z) (g : SnakeGame) : SnakeGame :=
  mkGame (cols g) (rows g) (snake g) (direction g) (next_direction g) (food g)
         (game_over g) (speed g) v.

(** ** Methods as state transformers that may raise *)

(** A call either returns a value or raises; in both cases the object is
    left in the state reached so far (assignments made before a raise
    stay). *)
Inductive outcome (A : Type) : Type :=
| Returned (a : A) (g : SnakeGame)
| Raised (e : exn) (g : SnakeGame).
Arguments Returned {A} a g.
Arguments Raised {A} e g.

Definition M (A : Type) : Type := SnakeGame -> outcome A.

Definition ret {A} (a : A) : M A := fun g => Returned a g.
Definition bind {A B} (m : M A) (k : A -> M B) : M B :=
  fun g => match m g with
           | Returned a g' => k a g'
           | Raised e g' => Raised e g'
           end.
Definition raise {A} (e : exn) : M A := fun g => Raised e g.
Definition gets {A} (f : SnakeGame -> A) : M A := fun g => Returned (f g) g.
Definition modify (f : SnakeGame -> SnakeGame) : M unit :=
  fun g => Returned tt (f g).

(** The object after a call, returned or raised. *)
Definition after {A} (o : outcome A) : SnakeGame :=
  match o with
  | Returned _ g => g
  | Raised _ g => g
  end.

Declare Scope game_scope.
Delimit Scope game_scope with game.
Notation "x <- m ;; k" := (bind m (fun x => k))
  (at level 61, m at next level, right associativity) : game_scope.
Notation "m ;; k" := (bind m (fun _ => k))
  (at level 61, right associativity) : game_scope.
Open Scope game_scope.

(** [a % b] on ints: the sign follows the divisor; ZeroDivisionError on 0. *)
Definition py_mod (a b : Z) : M Z :=
  if b =? 0 then raise ZeroDivisionError else ret (a mod b).

(** [l[0]] *)
Definition index0 (l : list Cell) : M Cell :=
  match l with
  | [] => raise IndexError
  | c :: _ => ret c
  end.

(** [l.pop()]: drops the last element. *)
Definition list_pop : M unit :=
  l <- gets snake ;;
  match l with
  | [] => raise IndexError
  | _ :: _ => modify (set_snake (removelast l))
  end.

(** [random.choice(l)] on a non-empty list, drawing index [r mod len(l)]. *)
Definition random_choice {A} (r : nat) (l : list A) : option A :=
  nth_error l (r mod length l)%nat.

(** [int(speed * 0.95)] *)
Definition int_speed_times_0_95 (sp : Z) : M Z :=
  match Float64.of_int sp with
  | inl e => raise e
  | inr f =>
      match Float64.to_int (Float64.mul f Float64.lit_0_95) with
      | inl e => raise e
      | inr n => ret n
      end
  end.

(** The exact value that the float expression approximates:
    the floor of [sp * 95 / 100]. *)
Definition floor_95_percent (sp : Z) : Z := sp * 95 / 100.

(** [[(x, y) for x in range(cols) for y in range(rows)
      if (x, y) not in snake]] *)
Definition empty_cells (g : SnakeGame) : list Cell :=
  flat_map
    (fun x =>
       flat_map (fun y => if cell_in (x, y) (snake g) then [] else [(x, y)])
                (range (rows g)))
    (range (cols g)).

Definition place_food (r : nat) : M unit :=
  fun g =>
    let ec := empty_cells g in
    modify (set_food (match ec with
                      | [] => None
                      | _ :: _ => random_choice r ec
                      end)) g.

Definition change_direction (d : Cell) : M unit :=
  dir <- gets direction ;;
  if (fst d =? - fst dir) && (snd d =? - snd dir) then ret tt
  else modify (set_next_direction d).

Definition on_game_over : M unit := modify (set_game_over true).

(** [new_head] of [tick]: head plus direction, each coordinate wrapped. *)
Definition new_head (g : SnakeGame) (head : Cell) : M Cell :=
  let '(head_x, head_y) := head in
  let '(dx, dy) := direction g in
  nx <- py_mod (head_x + dx) (cols g) ;;
  ny <- py_mod (head_y + dy) (rows g) ;;
  ret (nx, ny).

Definition tick (r : nat) : M unit :=
  over <- gets game_over ;;
  if over then ret tt
  else
    nd <- gets next_direction ;;
    modify (set_direction nd) ;;
    body <- gets snake ;;
    head <- index0 body ;;
    g <- gets (fun g => g) ;;
    nh <- new_head g head ;;
    if cell_in nh body then on_game_over
    else
      modify (set_snake (nh :: body)) ;;
      fd <- gets food ;;
      match fd with
      | Some f =>
          if cell_eqb nh f then
            sc <- gets score ;;
            modify (set_score (sc + 1)) ;;
            sp <- gets speed ;;
            v <- int_speed_times_0_95 sp ;;
            modify (set_speed (Z.max 30 v)) ;;
            place_food r
          else list_pop
      | None => list_pop
      end.

(** [reset]: every modelled attribute except [cols] and [rows] is
    overwritten, in the order of the source. *)
Definition reset (r : nat) : M unit :=
  g <- gets (fun g => g) ;;
  let mid_x := cols g / 2 in
  let mid_y := rows g / 2 in
  modify (set_snake [(mid_x - 0, mid_y); (mid_x - 1, mid_y); (mid_x - 2, mid_y)]) ;;
  modify (set_direction (1, 0)) ;;
  modify (set_next_direction (1, 0)) ;;
  place_food r ;;
  modify (set_game_over false) ;;
  modify (set_speed 120) ;;
  modify (set_score 0).

Definition on_restart (r : nat) : M unit :=
  over <- gets game_over ;;
  if over then reset r else ret tt.

(** [SnakeGame(master, width, height, cell_size)].  [//] raises
    ZeroDivisionError before any attribute of the simulation exists; the
    attributes that [reset] assigns have no value before it, the ones put
    here are overwritten. *)
Definition __init__ (r : nat) (width height cell_size : Z)
  : exn + SnakeGame :=
  if cell_size =? 0 then inl ZeroDivisionError
  else
    let blank := mkGame (width / cell_size) (height / cell_size)
                        [] (0, 0) (0, 0) None false 0 0 in
    match reset r blank with
    | Returned _ g => inr g
    | Raised e _ => inl e
    end.

(** ** Runs of the program *)

(** What the event loop can call on the object: the timer calls [tick], the
    key bindings call [change_direction] and [on_restart]; [place_food] is
    public too. *)
Inductive event : Type :=
| Tick (r : nat)
| ChangeDirection (d : Cell)
| PlaceFood (r : nat)
| Restart (r : nat).

Definition handle (e : event) : M unit :=
  match e with
  | Tick r => tick r
  | ChangeDirection d => change_direction d
  | PlaceFood r => place_food r
  | Restart r => on_restart r
  end.

(** Tk reports an exception raised by a callback and goes on, so the object
    lives on in the state the raise left. *)
Fixpoint run (evs : list event) (g : SnakeGame) : SnakeGame :=
  match evs with
  | [] => g
  | e :: evs' => run evs' (after (handle e g))
  end.

Definition reachable (g : SnakeGame) : Prop :=
  exists r width height cell_size g0 evs,
    __init__ r width height cell_size = inr g0 /\ g = run evs g0.

(** The wrapped cell that [new_head] computes on a grid with non-zero
    dimensions. *)
Definition wrapped (g : SnakeGame) (head : Cell) : Cell :=
  ((fst head + fst (direction g)) mod cols g,
   (snd head + snd (direction g)) mod rows g).

(** The cell the next [tick] will try to enter: the wrap of the head moved
    by the pending direction, which [tick] commits first. *)
Definition target (g : SnakeGame) (head : Cell) : Cell :=
  wrapped (set_direction (next_direction g) g) head.

(** [d] is the exact reverse of the committed direction: the test of
    [change_direction]. *)
Definition reverses (d : Cell) (g : SnakeGame) : Prop :=
  fst d = - fst (direction g) /\ snd d = - snd (direction g).

(** What every run keeps true of the body, the score and the interval. *)
Definition inv (g : SnakeGame) : Prop :=
  NoDup (snake g) /\
  Z.of_nat (length (snake g)) = score g + 3 /\
  0 <= score g /\
  30 <= speed g <= 120.

Definition is_restart (e : event) : bool :=
  match e with
  | Restart _ => true
  | _ => false
  end.

(** ** Sample games *)

(** [SnakeGame(root)] with the default 600 x 400 window and 20-pixel cells,
    the draw of the food being index 0. *)
Definition game_30x20 : SnakeGame :=
  mkGame 30 20 [(15, 10); (14, 10); (13, 10)] (1, 0) (1, 0)
         (Some (0, 0)) false 120 0.

(** The same game after the Up key: right committed, up pending. *)
Definition game_30x20_up : SnakeGame :=
  mkGame 30 20 [(15, 10); (14, 10); (13, 10)] (1, 0) (0, -1)
         (Some (0, 0)) false 120 0.

(** A snake whose head is on the right edge of the 30 x 20 grid. *)
Definition game_edge : SnakeGame :=
  mkGame 30 20 [(29, 5); (28, 5); (27, 5)] (1, 0) (1, 0)
         (Some (0, 0)) false 120 0.

(** [SnakeGame(root, 80, 20, 20)]: a 4 x 1 grid, one free cell. *)
Definition game_4x1 : SnakeGame :=
  mkGame 4 1 [(2, 0); (1, 0); (0, 0)] (1, 0) (1, 0)
         (Some (3, 0)) false 120 0.

(** [game_4x1] after one tick: the food is eaten and the grid is full. *)
Definition game_4x1_fed : SnakeGame :=
  mkGame 4 1 [(3, 0); (2, 0); (1, 0); (0, 0)] (1, 0) (1, 0)
         None false 114 1.

(** [game_4x1] after two ticks: the head has run into the tail cell. *)
Definition game_4x1_dead : SnakeGame :=
  mkGame 4 1 [(3, 0); (2, 0); (1, 0); (0, 0)] (1, 0) (1, 0)
         None true 114 1.

(** ** Notions for further properties of the methods *)

(** The cell lies on the grid: what [range(cols)] x [range(rows)]
    enumerates in [place_food]. *)
Definition in_grid (g : SnakeGame) (c : Cell) : Prop :=
  0 <= fst c < cols g /\ 0 <= snd c < rows g.

(** The four vectors that [bind_keys] passes to [change_direction]. *)
Definition key_direction (d : Cell) : Prop :=
  d = (0, -1) \/ d = (0, 1) \/ d = (-1, 0) \/ d = (1, 0).

Definition key_event (e : event) : Prop :=
  match e with
  | ChangeDirection d => key_direction d
  | _ => True
  end.

(** Runs in which [change_direction] is only called as the key bindings
    call it. *)
Definition key_reachable (g : SnakeGame) : Prop :=
  exists r width height cell_size g0 evs,
    __init__ r width height cell_size = inr g0 /\
    Forall key_event evs /\ g = run evs g0.

(** One speed-up, and the interval after [n] of them from the 120 of
    [reset]. *)
Definition speed_step (sp : Z) : Z := Z.max 30 (floor_95_percent sp).

Definition speed_of_score (n : Z) : Z :=
  Nat.iter (Z.to_nat n) speed_step 120.

(** All cells of the grid, in the order of the comprehension of
    [place_food]. *)
Definition grid_cells (g : SnakeGame) : list Cell :=
  flat_map (fun x => map (fun y => (x, y)) (range (rows g))) (range (cols g)).

(** The food is a free cell of the grid, and is absent only when the grid
    has no free cell. *)
Definition food_inv (g : SnakeGame) : Prop :=
  (forall c, food g = Some c -> in_grid g c /\ ~ In c (snake g)) /\
  (food g = None -> forall c, in_grid g c -> In c (snake g)).

(** In a live game on a grid with non-zero dimensions the head is the
    second cell moved by the committed direction, up to wrapping; both
    directions are key directions and the pending one does not reverse the
    committed one. *)
Definition neck_inv (g : SnakeGame) : Prop :=
  key_direction (direction g) /\
  key_direction (next_direction g) /\
  ~ reverses (next_direction g) g /\
  (game_over g = false -> cols g <> 0 -> rows g <> 0 -> forall h n t,
     snake g = h :: n :: t ->
     exists kx ky,
       fst h = fst n + fst (direction g) + kx * cols g /\
       snd h = snd n + snd (direction g) + ky * rows g).

(** [SnakeGame(root, 10, 10, 20)]: a window smaller than one cell, so a
    grid of 0 by 0. *)
Definition game_0x0 : SnakeGame :=
  mkGame 0 0 [(0, 0); (-1, 0); (-2, 0)] (1, 0) (1, 0) None false 120 0.

(** [SnakeGame(root, 60, 20, 20)]: a 3 x 1 grid. *)
Definition game_3x1 : SnakeGame :=
  mkGame 3 1 [(1, 0); (0, 0); (-1, 0)] (1, 0) (1, 0) (Some (2, 0))
         false 120 0.

(** ** The window: canvas, timer and key bindings

    The methods again, now with the statements that the simulation core
    above leaves out: the canvas items they create and delete, the
    [after] calls that schedule [tick], and the key bindings.  The
    statements on the game attributes are the ones of the core, run on the
    [game] component; [tick] is given statement by statement because it
    draws in the middle.  The two labels of the constructor are static and
    left out. *)
Module Gui.

(** Canvas items, with the options that the program passes. *)
Inductive item : Type :=
| Rectangle (x1 y1 x2 y2 : Z) (fill outline : string)
| Text (x y : Z) (text fill : string) (font : string * Z * option string).

(** The callbacks that [bind_keys] installs. *)
Inductive callback : Type :=
| CallChangeDirection (d : Cell)
| CallOnRestart.

Record Window : Type := mkWindow {
  width : Z;
  height : Z;
  cell_size : Z;
  game : SnakeGame;
  (** items of the canvas in creation order, later ones on top *)
  canvas : list item;
  (** delays of the pending [after(ms, self.tick)] calls *)
  timers : list Z;
  (** event sequence and callback of each binding of [master] *)
  bindings : list (string * callback)
}.

Definition set_game (v : SnakeGame) (w : Window) : Window :=
  mkWindow (width w) (height w) (cell_size w) v (canvas w) (timers w)
           (bindings w).
Definition set_canvas (v : list item) (w : Window) : Window :=
  mkWindow (width w) (height w) (cell_size w) (game w) v (timers w)
           (bindings w).
Definition set_timers (v : list Z) (w : Window) : Window :=
  mkWindow (width w) (height w) (cell_size w) (game w) (canvas w) v
           (bindings w).
Definition set_bindings (v : list (string * callback)) (w : Window) : Window :=
  mkWindow (width w) (height w) (cell_size w) (game w) (canvas w) (timers w)
           v.

Inductive result (A : Type) : Type :=
| Done (a : A) (w : Window)
| Failed (e : exn) (w : Window).
Arguments Done {A} a w.
Arguments Failed {A} e w.

Definition G (A : Type) : Type := Window -> result A.

Definition pure {A} (a : A) : G A := fun w => Done a w.
Definition and_then {A B} (m : G A) (k : A -> G B) : G B :=
  fun w => match m w with
           | Done a w' => k a w'
           | Failed e w' => Failed e w'
           end.
Definition read {A} (f : Window -> A) : G A := fun w => Done (f w) w.
Definition update (f : Window -> Window) : G unit := fun w => Done tt (f w).

(** A statement of the core, run on the game of the window. *)
Definition lift {A} (m : M A) : G A :=
  fun w => match m (game w) with
           | Returned a g => Done a (set_game g w)
           | Raised e g => Failed e (set_game g w)
           end.

(** The window after a call, returned or raised. *)
Definition final {A} (o : result A) : Window :=
  match o with
  | Done _ w => w
  | Failed _ w => w
  end.

Declare Scope gui_scope.
Delimit Scope gui_scope with gui.
Notation "x <- m ;; k" := (and_then m (fun x => k))
  (at level 61, m at next level, right associativity) : gui_scope.
Notation "m ;; k" := (and_then m (fun _ => k))
  (at level 61, right associativity) : gui_scope.
Local Open Scope gui_scope.

(** [str(n)] for an int. *)
Definition str (n : Z) : string := NilZero.string_of_int (Z.to_int n).

Definition create_rectangle (x1 y1 x2 y2 : Z) (fill outline : string)
  : G unit :=
  update (fun w => set_canvas (canvas w ++ [Rectangle x1 y1 x2 y2 fill outline]) w).

Definition create_text (x y : Z) (text fill : string)
  (font : string * Z * option string) : G unit :=
  update (fun w => set_canvas (canvas w ++ [Text x y text fill font]) w).

(** [canvas.delete("all")] *)
Definition delete_all : G unit := update (set_canvas []).

(** [master.after(ms, self.tick)] *)
Definition master_after (ms : Z) : G unit :=
  update (fun w => set_timers (timers w ++ [ms]) w).

(** [master.bind(seq, callback)]: a new binding of a sequence replaces the
    old one. *)
Definition master_bind (seq : string) (cb : callback) : G unit :=
  update (fun w =>
            set_bindings
              (filter (fun b => negb (String.eqb (fst b) seq)) (bindings w)
                 ++ [(seq, cb)]) w).

Definition bind_keys : G unit :=
  master_bind "<Up>" (CallChangeDirection (0, -1)) ;;
  master_bind "<Down>" (CallChangeDirection (0, 1)) ;;
  master_bind "<Left>" (CallChangeDirection (-1, 0)) ;;
  master_bind "<Right>" (CallChangeDirection (1, 0)) ;;
  master_bind "w" (CallChangeDirection (0, -1)) ;;
  master_bind "s" (CallChangeDirection (0, 1)) ;;
  master_bind "a" (CallChangeDirection (-1, 0)) ;;
  master_bind "d" (CallChangeDirection (1, 0)) ;;
  master_bind "r" CallOnRestart.

Definition _draw_cell (grid_x grid_y : Z) (fill : string) : G unit :=
  cs <- read cell_size ;;
  let x1 := grid_x * cs in
  let y1 := grid_y * cs in
  let x2 := x1 + cs in
  let y2 := y1 + cs in
  let pad := Z.max 1 (cs / 10) in
  create_rectangle (x1 + pad) (y1 + pad) (x2 - pad) (y2 - pad) fill "".

(** [for i, (x, y) in enumerate(self.snake)], from index [i] on. *)
Fixpoint draw_snake (i : nat) (body : list Cell) : G unit :=
  match body with
  | [] => pure tt
  | (x, y) :: rest =>
      _draw_cell x y (if Nat.eqb i 0 then "#2ecc71" else "#27ae60") ;;
      draw_snake (S i) rest
  end.

Definition redraw : G unit :=
  delete_all ;;
  fd <- lift (gets food) ;;
  match fd with
  | Some (x, y) => _draw_cell x y "#e74c3c"
  | None => pure tt
  end ;;
  body <- lift (gets snake) ;;
  draw_snake 0 body.

Arguments redraw : simpl never.

(** The assignment is the [on_game_over] of the core. *)
Definition on_game_over : G unit :=
  lift on_game_over ;;
  wd <- read width ;;
  ht <- read height ;;
  sc <- lift (gets score) ;;
  create_text (wd / 2) (ht / 2 - 20) "GAME OVER" "#fff"
              ("Helvetica"%string, 24, Some "bold"%string) ;;
  create_text (wd / 2) (ht / 2 + 14) (String.append "Score: " (str sc)) "#ddd"
              ("Helvetica"%string, 14, None) ;;
  create_text (wd / 2) (ht / 2 + 44) "Press R to restart" "#aaa"
              ("Helvetica"%string, 10, None).

Arguments on_game_over : simpl never.

Definition tick (r : nat) : G unit :=
  over <- lift (gets game_over) ;;
  if over then pure tt
  else
    nd <- lift (gets next_direction) ;;
    lift (modify (set_direction nd)) ;;
    body <- lift (gets snake) ;;
    head <- lift (index0 body) ;;
    g <- lift (gets (fun g => g)) ;;
    nh <- lift (new_head g head) ;;
    if cell_in nh body then on_game_over
    else
      lift (modify (set_snake (nh :: body))) ;;
      fd <- lift (gets food) ;;
      match fd with
      | Some f =>
          if cell_eqb nh f then
            sc <- lift (gets score) ;;
            lift (modify (set_score (sc + 1))) ;;
            sp <- lift (gets speed) ;;
            v <- lift (int_speed_times_0_95 sp) ;;
            lift (modify (set_speed (Z.max 30 v))) ;;
            lift (place_food r)
          else lift list_pop
      | None => lift list_pop
      end ;;
      redraw ;;
      sp <- lift (gets speed) ;;
      master_after sp.

(** The assignments, up to [score_var.set(0)], are the [reset] of the
    core; then the frame is drawn and the loop started. *)
Definition reset (r : nat) : G unit :=
  lift (reset r) ;;
  redraw ;;
  sp <- lift (gets speed) ;;
  master_after sp.

Definition on_restart (r : nat) : G unit :=
  over <- lift (gets game_over) ;;
  if over then reset r else pure tt.

Definition __init__ (r : nat) (width height cell_size : Z)
  : exn + Window :=
  if cell_size =? 0 then inl ZeroDivisionError
  else
    let blank :=
      mkWindow width height cell_size
               (mkGame (width / cell_size) (height / cell_size)
                       [] (0, 0) (0, 0) None false 0 0)
               [] [] [] in
    match (reset r ;; bind_keys) blank with
    | Done _ w => inr w
    | Failed e _ => inl e
    end.

(** What the event loop delivers: a key press matching the sequence [seq],
    or the expiry of the pending timer number [i].  [r] is the draw of
    [random.choice], should the callback get to it. *)
Inductive input : Type :=
| KeyPress (seq : string) (r : nat)
| TimerFires (i : nat) (r : nat).

Definition call (cb : callback) (r : nat) : G unit :=
  match cb with
  | CallChangeDirection d => lift (change_direction d)
  | CallOnRestart => on_restart r
  end.

Definition lookup (seq : string) (bs : list (string * callback))
  : option callback :=
  match find (fun b => String.eqb (fst b) seq) bs with
  | Some b => Some (snd b)
  | None => None
  end.

Definition dispatch (i : input) : G unit :=
  match i with
  | KeyPress seq r =>
      bs <- read bindings ;;
      match lookup seq bs with
      | Some cb => call cb r
      | None => pure tt
      end
  | TimerFires i r =>
      ts <- read timers ;;
      match nth_error ts i with
      | Some _ =>
          update (set_timers (firstn i ts ++ skipn (S i) ts)) ;;
          tick r
      | None => pure tt
      end
  end.

Fixpoint run (ins : list input) (w : Window) : Window :=
  match ins with
  | [] => w
  | i :: ins' => run ins' (final (dispatch i w))
  end.

Definition reachable (w : Window) : Prop :=
  exists r width height cell_size w0 ins,
    __init__ r width height cell_size = inr w0 /\ w = run ins w0.

(** The items that [redraw] leaves on the canvas, and the ones that
    [on_game_over] adds. *)
Definition frame (w : Window) : list item :=
  canvas (final (redraw w)).

Definition banner (w : Window) : list item :=
  canvas (final (on_game_over (set_canvas [] w))).

(** The rectangle of [_draw_cell]. *)
Definition cell_rectangle (cs : Z) (c : Cell) (fill : string) : item :=
  Rectangle (fst c * cs + Z.max 1 (cs / 10))
            (snd c * cs + Z.max 1 (cs / 10))
            (fst c * cs + cs - Z.max 1 (cs / 10))
            (snd c * cs + cs - Z.max 1 (cs / 10)) fill "".

(** The bindings of [master] once [bind_keys] has run. *)
Definition key_bindings : list (string * callback) :=
  [("<Up>"%string, CallChangeDirection (0, -1));
   ("<Down>"%string, CallChangeDirection (0, 1));
   ("<Left>"%string, CallChangeDirection (-1, 0));
   ("<Right>"%string, CallChangeDirection (1, 0));
   ("w"%string, CallChangeDirection (0, -1));
   ("s"%string, CallChangeDirection (0, 1));
   ("a"%string, CallChangeDirection (-1, 0));
   ("d"%string, CallChangeDirection (1, 0));
   ("r"%string, CallOnRestart)].

(** The default window, [SnakeGame(root)], food drawn with index 0. *)
Definition window_30x20 : Window :=
  mkWindow 600 400 20 game_30x20
           [Rectangle 2 2 18 18 "#e74c3c" "";
            Rectangle 302 202 318 218 "#2ecc71" "";
            Rectangle 282 202 298 218 "#27ae60" "";
            Rectangle 262 202 278 218 "#27ae60" ""]
           [120] key_bindings.

(** [SnakeGame(root, 10, 10, 20)]: the window of [game_0x0]. *)
Definition window_0x0 : Window :=
  mkWindow 10 10 20 game_0x0
           [Rectangle 2 2 18 18 "#2ecc71" "";
            Rectangle (-18) 2 (-2) 18 "#27ae60" "";
            Rectangle (-38) 2 (-22) 18 "#27ae60" ""]
           [120] key_bindings.

End Gui.

(** What every run of the window keeps true: the bindings are the ones of
    [bind_keys]; the grid is the window divided into cells; the game
    satisfies [inv]; the canvas shows the frame of the current game, under
    the banner once the game is over; and on a grid with non-zero
    dimensions one [tick] is pending, with the current interval as its
    delay, while the game is alive, and none when it is over. *)
Definition window_inv (w : Gui.Window) : Prop :=
  Gui.bindings w = Gui.key_bindings /\
  Gui.cell_size w <> 0 /\
  cols (Gui.game w) = Gui.width w / Gui.cell_size w /\
  rows (Gui.game w) = Gui.height w / Gui.cell_size w /\
  inv (Gui.game w) /\
  Gui.canvas w =
    Gui.frame w ++ (if game_over (Gui.game w) then Gui.banner w else []) /\
  (cols (Gui.game w) <> 0 -> rows (Gui.game w) <> 0 ->
   Gui.timers w = if game_over (Gui.game w) then [] else [speed (Gui.game w)]).

(** ** Basic facts on cells, ranges and lists *)

Lemma cell_eqb_eq (a b : Cell) : cell_eqb a b = true <-> a = b.
Proof.
  destruct a as [ax ay], b as [bx b_y]; unfold cell_eqb; simpl.
  rewrite andb_true_iff, !Z.eqb_eq. split.
  - intros [-> ->]; reflexivity.
  - intros E; inversion E; auto.
Qed.

Lemma cell_eqb_neq (a b : Cell) : cell_eqb a b = false <-> a <> b.
Proof.
  rewrite <- cell_eqb_eq. destruct (cell_eqb a b); split; congruence.
Qed.

Lemma cell_in_In (c : Cell) (l : list Cell) : cell_in c l = true <-> In c l.
Proof.
  unfold cell_in. rewrite existsb_exists. split.
  - intros [x [Hx E]]. apply cell_eqb_eq in E. subst; assumption.
  - intros H. exists c. split; [assumption | apply cell_eqb_eq; reflexivity].
Qed.

Lemma cell_in_false (c : Cell) (l : list Cell) :
  cell_in c l = false <-> ~ In c l.
Proof.
  rewrite <- cell_in_In. destruct (cell_in c l); split; congruence.
Qed.

Lemma In_range (n x : Z) : In x (range n) <-> 0 <= x < n.
Proof.
  unfold range. rewrite in_map_iff. split.
  - intros [k [<- Hk]]. apply in_seq in Hk. lia.
  - intros H. exists (Z.to_nat x). split; [lia | apply in_seq; lia].
Qed.

Lemma NoDup_range (n : Z) : NoDup (range n).
Proof.
  unfold range. apply Injective_map_NoDup.
  - intros a b H. lia.
  - apply seq_NoDup.
Qed.

Lemma removelast_cons_cons {A} (a b : A) (l : list A) :
  removelast (a :: b :: l) = a :: removelast (b :: l).
Proof. reflexivity. Qed.

Lemma In_removelast {A} (x : A) (l : list A) :
  In x (removelast l) -> In x l.
Proof.
  induction l as [|a l IH]; [intros [] |].
  destruct l as [|b l]; [intros [] |].
  rewrite removelast_cons_cons. intros [H|H]; [left; exact H|].
  right. apply IH. exact H.
Qed.

Lemma NoDup_removelast {A} (l : list A) : NoDup l -> NoDup (removelast l).
Proof.
  induction l as [|a l IH]; intros H; [exact H|].
  destruct l as [|b l]; [constructor|].
  rewrite removelast_cons_cons. inversion H; subst. constructor.
  - intros Hin. apply In_removelast in Hin. contradiction.
  - apply IH; assumption.
Qed.

Lemma last_In {A} (l : list A) (d : A) : l <> [] -> In (last l d) l.
Proof.
  intros H.
  assert (X : In (last l d) (removelast l ++ [last l d])).
  { apply in_or_app. right. left. reflexivity. }
  rewrite <- (app_removelast_last d H) in X. exact X.
Qed.

Lemma length_removelast_cons {A} (a : A) (l : list A) :
  length (removelast (a :: l)) = length l.
Proof.
  revert a. induction l as [|b l IH]; intros a; [reflexivity|].
  rewrite removelast_cons_cons. simpl length. f_equal. apply IH.
Qed.

(** ** [place_food] *)

Lemma In_empty_cells (g : SnakeGame) (c : Cell) :
  In c (empty_cells g) <->
  0 <= fst c < cols g /\ 0 <= snd c < rows g /\ ~ In c (snake g).
Proof.
  unfold empty_cells. rewrite in_flat_map. split.
  - intros [x [Hx H]]. apply in_flat_map in H. destruct H as [y [Hy H]].
    apply In_range in Hx, Hy.
    destruct (cell_in (x, y) (snake g)) eqn:E; [destruct H|].
    destruct H as [<-|[]]. simpl. apply cell_in_false in E. auto.
  - destruct c as [x y]; simpl. intros (Hx & Hy & Hn).
    exists x. split; [apply In_range; exact Hx|].
    apply in_flat_map. exists y. split; [apply In_range; exact Hy|].
    apply cell_in_false in Hn. rewrite Hn. left; reflexivity.
Qed.

Lemma NoDup_flat_map {A B} (f : A -> list B) (l : list A) :
  NoDup l ->
  (forall a, In a l -> NoDup (f a)) ->
  (forall a a' b, In a l -> In a' l -> In b (f a) -> In b (f a') -> a = a') ->
  NoDup (flat_map f l).
Proof.
  induction 1 as [|a l Hna Hnd IH]; intros Hf Hinj; simpl; [constructor|].
  apply NoDup_app.
  - apply Hf. left; reflexivity.
  - apply IH.
    + intros a' Ha'. apply Hf. right; exact Ha'.
    + intros a1 a2 b H1 H2. apply Hinj; right; assumption.
  - intros b Hb Hb'. apply in_flat_map in Hb'. destruct Hb' as [a' [Ha' Hb']].
    assert (a = a') as <-.
    { apply (Hinj a a' b); auto; [left; reflexivity | right; exact Ha']. }
    contradiction.
Qed.

Lemma NoDup_empty_cells (g : SnakeGame) : NoDup (empty_cells g).
Proof.
  unfold empty_cells. apply NoDup_flat_map.
  - apply NoDup_range.
  - intros x _. apply NoDup_flat_map.
    + apply NoDup_range.
    + intros y _. destruct (cell_in (x, y) (snake g)); repeat constructor.
      intros [].
    + intros y y' b _ _ H H'.
      destruct (cell_in (x, y) (snake g)); [destruct H|].
      destruct (cell_in (x, y') (snake g)); [destruct H'|].
      destruct H as [<-|[]]. destruct H' as [E|[]]. congruence.
  - intros x x' b _ _ H H'.
    apply in_flat_map in H, H'.
    destruct H as [y [_ H]], H' as [y' [_ H']].
    destruct (cell_in (x, y) (snake g)); [destruct H|].
    destruct (cell_in (x', y') (snake g)); [destruct H'|].
    destruct H as [<-|[]]. destruct H' as [E|[]]. congruence.
Qed.

Lemma random_choice_In {A} (r : nat) (l : list A) (a : A) :
  random_choice r l = Some a -> In a l.
Proof. unfold random_choice. apply nth_error_In. Qed.

Lemma random_choice_cons {A} (r : nat) (a : A) (l : list A) :
  exists b, random_choice r (a :: l) = Some b.
Proof.
  unfold random_choice.
  destruct (nth_error (a :: l) (r mod length (a :: l))%nat) as [b|] eqn:E.
  - exists b; reflexivity.
  - exfalso. apply nth_error_None in E.
    pose proof (Nat.mod_upper_bound r (length (a :: l))) as Hb.
    simpl length in *. lia.
Qed.

Lemma place_food_eq (r : nat) (g : SnakeGame) :
  place_food r g =
  Returned tt (set_food (match empty_cells g with
                         | [] => None
                         | _ :: _ => random_choice r (empty_cells g)
                         end) g).
Proof. reflexivity. Qed.

(** C8. [place_food] returns, touches only [food], and sets it to the cell
    at index [r mod len] of the list of free cells, or to [None] when that
    list is empty.  The list has no duplicates and holds exactly the cells of
    the grid that are not in the snake, so the food is never on the snake,
    every free cell is drawn by exactly one of the [len] indices that
    [random.choice] picks among with equal chance, and the food is absent
    exactly when the grid has no free cell. *)
Theorem place_food_free_uniform (r : nat) (g : SnakeGame) :
  exists g',
    place_food r g = Returned tt g' /\
    g' = set_food (food g') g /\
    (forall c, In c (empty_cells g) <->
               0 <= fst c < cols g /\ 0 <= snd c < rows g /\ ~ In c (snake g)) /\
    NoDup (empty_cells g) /\
    (forall c, In c (empty_cells g) ->
       exists i, (i < length (empty_cells g))%nat /\
                 nth_error (empty_cells g) i = Some c /\
                 forall j, nth_error (empty_cells g) j = Some c -> j = i) /\
    (empty_cells g <> [] ->
       food g' = nth_error (empty_cells g) (r mod length (empty_cells g))%nat /\
       (r mod length (empty_cells g) < length (empty_cells g))%nat) /\
    (forall c, food g' = Some c ->
       ~ In c (snake g') /\ 0 <= fst c < cols g' /\ 0 <= snd c < rows g') /\
    (food g' = None <->
       forall x y, 0 <= x < cols g -> 0 <= y < rows g -> In (x, y) (snake g)).
Proof.
  eexists. split; [apply place_food_eq|].
  pose proof (NoDup_empty_cells g) as Hnd.
  pose proof (In_empty_cells g) as Hin.
  split; [reflexivity|]. split; [exact Hin|]. split; [exact Hnd|].
  split; [|split; [|split]].
  - intros c Hc. apply In_nth_error in Hc. destruct Hc as [i Hi].
    exists i. split; [apply nth_error_Some; congruence|]. split; [exact Hi|].
    intros j Hj. symmetry.
    apply (proj1 (NoDup_nth_error (empty_cells g)) Hnd).
    + apply nth_error_Some; congruence.
    + congruence.
  - intros Hne. simpl. destruct (empty_cells g) as [|a l] eqn:E; [congruence|].
    split; [reflexivity|]. apply Nat.mod_upper_bound. simpl; lia.
  - simpl. intros c Hc.
    destruct (empty_cells g) as [|a l] eqn:E; [discriminate|].
    apply random_choice_In in Hc. apply Hin in Hc. tauto.
  - simpl. destruct (empty_cells g) as [|a l] eqn:E.
    + split; [|reflexivity]. intros _ x y Hx Hy.
      destruct (cell_in (x, y) (snake g)) eqn:Hc; [apply cell_in_In; exact Hc|].
      exfalso. apply cell_in_false in Hc.
      apply (proj2 (Hin (x, y))). simpl; tauto.
    + destruct (random_choice_cons r a l) as [b Hb]. rewrite Hb.
      split; [discriminate|]. intros Hall. exfalso.
      assert (Ha : In a (a :: l)) by (left; reflexivity).
      apply Hin in Ha. destruct a as [x y]; simpl in Ha.
      destruct Ha as (Hx & Hy & Hn). apply Hn, Hall; assumption.
Qed.

(** ** The float expression of the speed-up *)

Lemma lit_0_95_nearest :
  SFdiv Float64.prec Float64.emax (S754_finite false 95 0)
        (S754_finite false 100 0) = Float64.lit_0_95.
Proof. vm_compute. reflexivity. Qed.

Lemma int_speed_times_0_95_table :
  forallb
    (fun sp =>
       match Float64.of_int sp with
       | inr f =>
           match Float64.to_int (Float64.mul f Float64.lit_0_95) with
           | inr n => n =? floor_95_percent sp
           | inl _ => false
           end
       | inl _ => false
       end)
    (range 4097) = true.
Proof. vm_compute. reflexivity. Qed.

(** On every interval up to 4096 the float computation returns the exact
    floor of 95 percent. *)
Lemma int_speed_times_0_95_exact (sp : Z) (g : SnakeGame) :
  0 <= sp <= 4096 ->
  int_speed_times_0_95 sp g = Returned (floor_95_percent sp) g.
Proof.
  intros H.
  pose proof int_speed_times_0_95_table as T.
  rewrite forallb_forall in T. specialize (T sp).
  assert (Hin : In sp (range 4097)) by (apply In_range; lia).
  specialize (T Hin). unfold int_speed_times_0_95.
  destruct (Float64.of_int sp) as [e|f]; [discriminate|].
  destruct (Float64.to_int (Float64.mul f Float64.lit_0_95)) as [e|n];
    [discriminate|].
  apply Z.eqb_eq in T. subst n. reflexivity.
Qed.

Lemma floor_95_percent_bounds (sp : Z) :
  0 <= sp -> 0 <= floor_95_percent sp <= sp.
Proof.
  intros H. unfold floor_95_percent. split.
  - apply Z.div_pos; lia.
  - apply Z.div_le_upper_bound; lia.
Qed.

(** ** Equations of [tick], one per path through its body *)

Lemma new_head_eq (g g' : SnakeGame) (h : Cell) :
  cols g <> 0 -> rows g <> 0 ->
  new_head g h g' = Returned (wrapped g h) g'.
Proof.
  intros Hc Hr. unfold new_head, wrapped, py_mod, bind, ret.
  destruct h as [hx hy]. destruct (direction g) as [dx dy].
  apply Z.eqb_neq in Hc, Hr. rewrite Hc, Hr. reflexivity.
Qed.

Lemma tick_dead (r : nat) (g : SnakeGame) :
  game_over g = true -> tick r g = Returned tt g.
Proof. intros H. unfold tick, bind, gets. rewrite H. reflexivity. Qed.

Lemma tick_no_head (r : nat) (g : SnakeGame) :
  game_over g = false -> snake g = [] ->
  tick r g = Raised IndexError (set_direction (next_direction g) g).
Proof.
  intros H E. unfold tick, bind, gets, modify. rewrite H. simpl.
  rewrite E. reflexivity.
Qed.

Lemma tick_zero_grid (r : nat) (g : SnakeGame) (h : Cell) (t : list Cell) :
  game_over g = false -> snake g = h :: t ->
  cols g = 0 \/ rows g = 0 ->
  tick r g = Raised ZeroDivisionError (set_direction (next_direction g) g).
Proof.
  intros H E Hz. unfold tick, bind, gets, modify. rewrite H. simpl.
  rewrite E. simpl. unfold new_head, py_mod, bind, raise, ret. simpl.
  destruct h as [hx hy]. destruct (next_direction g) as [dx dy].
  destruct (cols g =? 0) eqn:Ec; [reflexivity|].
  destruct (rows g =? 0) eqn:Er; [reflexivity|].
  apply Z.eqb_neq in Ec, Er. lia.
Qed.

Lemma tick_collide (r : nat) (g : SnakeGame) (h : Cell) (t : list Cell) :
  game_over g = false -> snake g = h :: t ->
  cols g <> 0 -> rows g <> 0 ->
  In (target g h) (snake g) ->
  tick r g =
  Returned tt (set_game_over true (set_direction (next_direction g) g)).
Proof.
  intros H E Hc Hr Hin. unfold tick, bind, gets, modify. rewrite H. simpl.
  rewrite E. simpl. rewrite new_head_eq by assumption.
  apply cell_in_In in Hin. unfold target in Hin. rewrite E in Hin.
  rewrite Hin. reflexivity.
Qed.

Lemma tick_move (r : nat) (g : SnakeGame) (h : Cell) (t : list Cell) :
  game_over g = false -> snake g = h :: t ->
  cols g <> 0 -> rows g <> 0 ->
  ~ In (target g h) (snake g) ->
  food g <> Some (target g h) ->
  tick r g =
  Returned tt (set_snake (target g h :: removelast (snake g))
                         (set_direction (next_direction g) g)).
Proof.
  intros H E Hc Hr Hin Hf. unfold tick, bind, gets, modify. rewrite H. simpl.
  rewrite E. simpl. rewrite new_head_eq by assumption.
  apply cell_in_false in Hin. unfold target in Hin, Hf. rewrite E in Hin.
  rewrite Hin. simpl.
  destruct (food g) as [f|] eqn:Ef.
  - destruct (cell_eqb _ f) eqn:Eq.
    + apply cell_eqb_eq in Eq. subst f. congruence.
    + reflexivity.
  - reflexivity.
Qed.

Lemma tick_eat (r : nat) (g : SnakeGame) (h : Cell) (t : list Cell) :
  game_over g = false -> snake g = h :: t ->
  cols g <> 0 -> rows g <> 0 ->
  ~ In (target g h) (snake g) ->
  food g = Some (target g h) ->
  0 <= speed g <= 4096 ->
  tick r g =
  place_food r
    (set_speed (Z.max 30 (floor_95_percent (speed g)))
       (set_score (score g + 1)
          (set_snake (target g h :: snake g)
             (set_direction (next_direction g) g)))).
Proof.
  intros H E Hc Hr Hin Hf Hs. unfold tick, bind, gets, modify. rewrite H.
  simpl. rewrite E. simpl. rewrite new_head_eq by assumption.
  apply cell_in_false in Hin. unfold target in Hin, Hf. rewrite E in Hin.
  rewrite Hin. simpl. rewrite Hf.
  rewrite (proj2 (cell_eqb_eq _ _) eq_refl).
  rewrite int_speed_times_0_95_exact by (simpl; exact Hs).
  reflexivity.
Qed.

Lemma int_speed_times_0_95_state (sp : Z) (g : SnakeGame) :
  (exists v, int_speed_times_0_95 sp g = Returned v g) \/
  (exists e, int_speed_times_0_95 sp g = Raised e g).
Proof.
  unfold int_speed_times_0_95.
  destruct (Float64.of_int sp) as [e|f]; [right; exists e; reflexivity|].
  destruct (Float64.to_int (Float64.mul f Float64.lit_0_95)) as [e|n];
    [right; exists e | left; exists n]; reflexivity.
Qed.

(** The eating path for any interval: when the float conversion raises, the
    head is already inserted and the score already counted. *)
Lemma tick_eat_after (r : nat) (g : SnakeGame) (h : Cell) (t : list Cell) :
  game_over g = false -> snake g = h :: t ->
  cols g <> 0 -> rows g <> 0 ->
  ~ In (target g h) (snake g) ->
  food g = Some (target g h) ->
  snake (after (tick r g)) = target g h :: snake g /\
  game_over (after (tick r g)) = false /\
  score (after (tick r g)) = score g + 1 /\
  direction (after (tick r g)) = next_direction g /\
  next_direction (after (tick r g)) = next_direction g.
Proof.
  intros H E Hc Hr Hin Hf. unfold tick, bind, gets, modify. rewrite H.
  simpl. rewrite E. simpl. rewrite new_head_eq by assumption.
  apply cell_in_false in Hin. unfold target in Hin, Hf. rewrite E in Hin.
  rewrite Hin. simpl. rewrite Hf.
  rewrite (proj2 (cell_eqb_eq _ _) eq_refl).
  match goal with
  | |- context [int_speed_times_0_95 ?sp ?s] =>
      destruct (int_speed_times_0_95_state sp s) as [[v Hv]|[e Hv]];
      rewrite Hv
  end; simpl; rewrite H; auto.
Qed.

(** A tick of a live game commits the pending direction on every path,
    also on the raising ones, and keeps the grid and the pending direction. *)
Lemma tick_alive_direction (r : nat) (g : SnakeGame) :
  game_over g = false ->
  direction (after (tick r g)) = next_direction g /\
  next_direction (after (tick r g)) = next_direction g.
Proof.
  intros H.
  destruct (snake g) as [|h t] eqn:E.
  { rewrite tick_no_head by assumption. auto. }
  destruct (Z.eq_dec (cols g) 0) as [Hc|Hc].
  { rewrite (tick_zero_grid r g h t) by auto. auto. }
  destruct (Z.eq_dec (rows g) 0) as [Hr|Hr].
  { rewrite (tick_zero_grid r g h t) by auto. auto. }
  destruct (cell_in (target g h) (snake g)) eqn:Hin.
  { apply cell_in_In in Hin. rewrite (tick_collide r g h t) by assumption.
    auto. }
  apply cell_in_false in Hin.
  destruct (food g) as [f|] eqn:Ef.
  - destruct (cell_eqb (target g h) f) eqn:Eq.
    + apply cell_eqb_eq in Eq. subst f.
      destruct (tick_eat_after r g h t) as (_ & _ & _ & ? & ?); auto.
    + rewrite (tick_move r g h t); auto.
      apply cell_eqb_neq in Eq. congruence.
  - rewrite (tick_move r g h t); auto. congruence.
Qed.

(** ** The invariant of runs *)

Lemma inv_frame (g g' : SnakeGame) :
  snake g' = snake g -> score g' = score g -> speed g' = speed g ->
  inv g -> inv g'.
Proof. unfold inv. intros -> -> ->. auto. Qed.

Lemma inv_place_food (r : nat) (g : SnakeGame) :
  inv g -> inv (after (place_food r g)).
Proof. apply inv_frame; reflexivity. Qed.

Lemma inv_change_direction (d : Cell) (g : SnakeGame) :
  inv g -> inv (after (change_direction d g)).
Proof.
  unfold change_direction, bind, gets, modify, ret.
  destruct (_ && _); apply inv_frame; reflexivity.
Qed.

Lemma reset_eq (r : nat) (g : SnakeGame) :
  exists fd,
    reset r g =
    Returned tt
      (mkGame (cols g) (rows g)
              [(cols g / 2 - 0, rows g / 2); (cols g / 2 - 1, rows g / 2);
               (cols g / 2 - 2, rows g / 2)]
              (1, 0) (1, 0) fd false 120 0).
Proof.
  eexists. unfold reset, bind, gets, modify, place_food. simpl. reflexivity.
Qed.

Lemma inv_reset (r : nat) (g : SnakeGame) : inv (after (reset r g)).
Proof.
  destruct (reset_eq r g) as [fd ->]. unfold inv. simpl.
  split; [|lia].
  repeat constructor; simpl; intros X;
    repeat (destruct X as [X|X]; [inversion X; lia|]); exact X.
Qed.

Lemma inv_on_restart (r : nat) (g : SnakeGame) :
  inv g -> inv (after (on_restart r g)).
Proof.
  intros H. unfold on_restart, bind, gets, ret.
  destruct (game_over g); [apply inv_reset | exact H].
Qed.

Lemma inv_tick (r : nat) (g : SnakeGame) : inv g -> inv (after (tick r g)).
Proof.
  intros Hi.
  destruct (game_over g) eqn:H.
  { rewrite tick_dead by assumption. exact Hi. }
  destruct (snake g) as [|h t] eqn:E.
  { rewrite tick_no_head by assumption. revert Hi. apply inv_frame; reflexivity. }
  destruct (Z.eq_dec (cols g) 0) as [Hc|Hc].
  { rewrite (tick_zero_grid r g h t) by auto.
    revert Hi. apply inv_frame; reflexivity. }
  destruct (Z.eq_dec (rows g) 0) as [Hr|Hr].
  { rewrite (tick_zero_grid r g h t) by auto.
    revert Hi. apply inv_frame; reflexivity. }
  destruct (cell_in (target g h) (snake g)) eqn:Hin.
  { apply cell_in_In in Hin. rewrite (tick_collide r g h t) by assumption.
    revert Hi. apply inv_frame; reflexivity. }
  apply cell_in_false in Hin.
  destruct Hi as (Hnd & Hlen & Hsc & Hsp).
  assert (Hmove : food g <> Some (target g h) -> inv (after (tick r g))).
  { intros Hf. rewrite (tick_move r g h t) by assumption.
    unfold inv. simpl. split; [|split; [|split]]; try assumption.
    - constructor.
      + intros X. apply In_removelast in X. contradiction.
      + apply NoDup_removelast. exact Hnd.
    - rewrite E in *. rewrite length_removelast_cons. simpl length in Hlen.
      simpl length. lia. }
  destruct (food g) as [f|] eqn:Ef; [|apply Hmove; discriminate].
  destruct (cell_eqb (target g h) f) eqn:Eq.
  - apply cell_eqb_eq in Eq. subst f.
    rewrite (tick_eat r g h t) by (assumption || lia).
    rewrite place_food_eq. unfold inv. simpl.
    pose proof (floor_95_percent_bounds (speed g)).
    split; [|split; [|split]]; try lia.
    constructor; assumption.
  - apply Hmove. apply cell_eqb_neq in Eq. congruence.
Qed.

Lemma inv_handle (e : event) (g : SnakeGame) :
  inv g -> inv (after (handle e g)).
Proof.
  destruct e; simpl.
  - apply inv_tick.
  - apply inv_change_direction.
  - apply inv_place_food.
  - apply inv_on_restart.
Qed.

Lemma inv_run (evs : list event) (g : SnakeGame) : inv g -> inv (run evs g).
Proof.
  revert g. induction evs as [|e evs IH]; intros g H; simpl; [exact H|].
  apply IH, inv_handle, H.
Qed.

Lemma init_eq (r : nat) (width height cell_size : Z) :
  cell_size <> 0 ->
  exists fd,
    __init__ r width height cell_size =
    inr (mkGame (width / cell_size) (height / cell_size)
                [(width / cell_size / 2 - 0, height / cell_size / 2);
                 (width / cell_size / 2 - 1, height / cell_size / 2);
                 (width / cell_size / 2 - 2, height / cell_size / 2)]
                (1, 0) (1, 0) fd false 120 0).
Proof.
  intros H. unfold __init__. apply Z.eqb_neq in H. rewrite H.
  eexists. unfold reset, bind, gets, modify, place_food. simpl. reflexivity.
Qed.

Lemma inv_init (r : nat) (width height cell_size : Z) (g : SnakeGame) :
  __init__ r width height cell_size = inr g -> inv g.
Proof.
  unfold __init__. destruct (cell_size =? 0); [discriminate|].
  match goal with |- context [reset r ?b] =>
    pose proof (inv_reset r b) as Hi; destruct (reset r b) end;
    intros X; inversion X; subst; exact Hi.
Qed.

Lemma reachable_inv (g : SnakeGame) : reachable g -> inv g.
Proof.
  intros (r & w & h & cs & g0 & evs & Hinit & ->).
  apply inv_run. eapply inv_init. exact Hinit.
Qed.

Lemma reachable_handle (e : event) (g : SnakeGame) :
  reachable g -> reachable (after (handle e g)).
Proof.
  intros (r & w & h & cs & g0 & evs & Hinit & ->).
  exists r, w, h, cs, g0, (evs ++ [e]). split; [exact Hinit|].
  clear Hinit. revert g0. induction evs as [|e' evs IH]; intros g0; simpl.
  - reflexivity.
  - apply IH.
Qed.

(** ** The sample games are games of the program *)

Lemma init_game_30x20 : __init__ 0 600 400 20 = inr game_30x20.
Proof. reflexivity. Qed.

Lemma init_game_4x1 : __init__ 0 80 20 20 = inr game_4x1.
Proof. reflexivity. Qed.

Lemma run_game_30x20_up :
  run [ChangeDirection (0, -1)] game_30x20 = game_30x20_up.
Proof. reflexivity. Qed.

Lemma run_game_4x1_fed : run [Tick 0] game_4x1 = game_4x1_fed.
Proof. reflexivity. Qed.

Lemma run_game_4x1_dead : run [Tick 0; Tick 0] game_4x1 = game_4x1_dead.
Proof. reflexivity. Qed.

Lemma run_game_edge :
  run (ChangeDirection (0, -1) :: repeat (Tick 0) 5 ++
       ChangeDirection (1, 0) :: repeat (Tick 0) 14) game_30x20 = game_edge.
Proof. vm_compute. reflexivity. Qed.

(** The boundary example: 30 columns, head at (29, 5), moving right. *)
Lemma game_edge_target : target game_edge (29, 5) = (0, 5).
Proof. reflexivity. Qed.

Lemma game_edge_tick :
  tick 0 game_edge =
  Returned tt (mkGame 30 20 [(0, 5); (29, 5); (28, 5)] (1, 0) (1, 0)
                      (Some (0, 0)) false 120 0).
Proof. reflexivity. Qed.

(** ** [change_direction] *)

Lemma change_direction_rejects (d : Cell) (g : SnakeGame) :
  reverses d g -> change_direction d g = Returned tt g.
Proof.
  intros [H1 H2]. unfold change_direction, bind, gets, ret.
  apply Z.eqb_eq in H1, H2. rewrite H1, H2. reflexivity.
Qed.

Lemma change_direction_records (d : Cell) (g : SnakeGame) :
  ~ reverses d g ->
  change_direction d g = Returned tt (set_next_direction d g).
Proof.
  intros H. unfold change_direction, bind, gets, ret, modify.
  destruct (_ && _) eqn:E; [|reflexivity].
  exfalso. apply H. apply andb_true_iff in E. destruct E as [E1 E2].
  apply Z.eqb_eq in E1, E2. split; assumption.
Qed.

Lemma reverses_dec (d : Cell) (g : SnakeGame) :
  {reverses d g} + {~ reverses d g}.
Proof.
  unfold reverses.
  destruct (Z.eq_dec (fst d) (- fst (direction g)));
    destruct (Z.eq_dec (snd d) (- snd (direction g))); tauto.
Qed.

Lemma set_next_direction_same (g : SnakeGame) :
  set_next_direction (next_direction g) g = g.
Proof. destruct g; reflexivity. Qed.

(** C1, as the code has it.  Once [game_over] is set, [tick] returns at
    once and leaves the object as it is.  [change_direction] has no test of
    [game_over]: it leaves the snake, the committed direction, the food, the
    score, the interval and the flag as they are, but still overwrites the
    pending direction with [d] unless [d] reverses the committed direction.
    [on_restart] then starts a new game: alive, score 0, three cells, both
    directions right. *)
Theorem game_over_frame (r : nat) (d : Cell) (g : SnakeGame) :
  game_over g = true ->
  tick r g = Returned tt g /\
  (exists g',
      change_direction d g = Returned tt g' /\
      g' = set_next_direction (next_direction g') g /\
      (reverses d g -> g' = g) /\
      (~ reverses d g -> next_direction g' = d)) /\
  (exists g'',
      on_restart r g = Returned tt g'' /\
      game_over g'' = false /\ score g'' = 0 /\
      length (snake g'') = 3%nat /\
      direction g'' = (1, 0) /\ next_direction g'' = (1, 0)).
Proof.
  intros H. split; [apply tick_dead; exact H|]. split.
  - destruct (reverses_dec d g) as [Hr|Hr].
    + exists g. split; [apply change_direction_rejects; exact Hr|].
      split; [symmetry; apply set_next_direction_same|]. tauto.
    + exists (set_next_direction d g).
      split; [apply change_direction_records; exact Hr|].
      split; [reflexivity|]. split; [tauto|reflexivity].
  - unfold on_restart, bind, gets. rewrite H.
    destruct (reset_eq r g) as [fd ->]. eexists. split; [reflexivity|].
    simpl. auto.
Qed.

Lemma game_over_frame_witness :
  game_over game_4x1_dead = true /\
  tick 0 game_4x1_dead = Returned tt game_4x1_dead.
Proof.
  split; [reflexivity|].
  apply (game_over_frame 0 (0, -1) game_4x1_dead). reflexivity.
Defined.

(** C1 as stated fails: in the game that died by running into its tail, a
    reachable state, [change_direction] with the Up direction changes the
    object (its pending direction). *)
Lemma change_direction_after_game_over :
  __init__ 0 80 20 20 = inr game_4x1 /\
  run [Tick 0; Tick 0] game_4x1 = game_4x1_dead /\
  game_over game_4x1_dead = true /\
  after (change_direction (0, -1) game_4x1_dead) <> game_4x1_dead.
Proof.
  split; [reflexivity|]. split; [reflexivity|]. split; [reflexivity|].
  intros X. apply (f_equal next_direction) in X. discriminate X.
Qed.

(** C2.  In a live game on a grid with non-zero dimensions, [tick] tests
    the wrapped new head against the whole body as it is before the move.
    When the new head is any cell of the body, and so also when it is the
    last cell, which the move would have vacated, [tick] returns with
    [game_over] set, the pending direction committed and everything else,
    the body first of all, as before the tick. *)
Theorem tick_self_collision
  (r : nat) (g : SnakeGame) (h : Cell) (t : list Cell) :
  game_over g = false ->
  snake g = h :: t ->
  cols g <> 0 -> rows g <> 0 ->
  (In (target g h) (snake g) ->
   tick r g =
   Returned tt (set_game_over true (set_direction (next_direction g) g)) /\
   game_over (after (tick r g)) = true /\
   snake (after (tick r g)) = snake g) /\
  (target g h = last (snake g) h ->
   game_over (after (tick r g)) = true /\
   snake (after (tick r g)) = snake g).
Proof.
  intros H E Hc Hr.
  assert (Hcol : In (target g h) (snake g) ->
                 tick r g =
                 Returned tt (set_game_over true
                                (set_direction (next_direction g) g))).
  { intros Hin. apply (tick_collide r g h t); assumption. }
  split.
  - intros Hin. rewrite (Hcol Hin). auto.
  - intros Hl. assert (Hin : In (target g h) (snake g)).
    { rewrite Hl, E. apply last_In. discriminate. }
    rewrite (Hcol Hin). auto.
Qed.

Lemma tick_self_collision_witness :
  game_over game_4x1_fed = false /\
  target game_4x1_fed (3, 0) = last (snake game_4x1_fed) (3, 0) /\
  game_over (after (tick 0 game_4x1_fed)) = true /\
  snake (after (tick 0 game_4x1_fed)) = snake game_4x1_fed.
Proof.
  split; [reflexivity|]. split; [reflexivity|].
  apply (tick_self_collision 0 game_4x1_fed (3, 0) [(2, 0); (1, 0); (0, 0)]).
  - reflexivity.
  - reflexivity.
  - simpl; lia.
  - simpl; lia.
  - reflexivity.
Defined.

(** C3.  In every state of every run of the program, from any
    construction and through any sequence of [tick], [change_direction],
    [place_food] and restart calls, a live game has a body without
    duplicate cells and with at least one cell. *)
Theorem reachable_snake_nodup (g : SnakeGame) :
  reachable g -> game_over g = false ->
  NoDup (snake g) /\ (1 <= length (snake g))%nat.
Proof.
  intros Hr _. destruct (reachable_inv g Hr) as (Hnd & Hlen & Hsc & _).
  split; [exact Hnd | lia].
Qed.

Lemma reachable_snake_nodup_witness :
  reachable game_4x1_fed /\ game_over game_4x1_fed = false /\
  NoDup (snake game_4x1_fed) /\ (1 <= length (snake game_4x1_fed))%nat.
Proof.
  assert (R : reachable game_4x1_fed).
  { exists 0%nat, 80, 20, 20, game_4x1, [Tick 0]. split; reflexivity. }
  split; [exact R|]. split; [reflexivity|].
  apply (reachable_snake_nodup game_4x1_fed R). reflexivity.
Defined.

(** C4.  In a live game on a grid with positive dimensions, the new head
    that [tick] computes is the head moved by the committed pending
    direction with each coordinate taken modulo the grid dimension; it lies
    in the grid.  The tick ends the game exactly when that wrapped cell is a
    cell of the body, so leaving the grid by an edge never does; when the
    game goes on the wrapped cell is the new first cell of the body. *)
Theorem tick_new_head_wraps
  (r : nat) (g : SnakeGame) (h : Cell) (t : list Cell) :
  game_over g = false ->
  snake g = h :: t ->
  0 < cols g -> 0 < rows g ->
  new_head (set_direction (next_direction g) g) h g
    = Returned (target g h) g /\
  target g h = ((fst h + fst (next_direction g)) mod cols g,
                (snd h + snd (next_direction g)) mod rows g) /\
  0 <= fst (target g h) < cols g /\
  0 <= snd (target g h) < rows g /\
  (game_over (after (tick r g)) = true <-> In (target g h) (snake g)) /\
  (~ In (target g h) (snake g) ->
   hd_error (snake (after (tick r g))) = Some (target g h)).
Proof.
  intros H E Hc Hr.
  assert (Hc' : cols g <> 0) by lia. assert (Hr' : rows g <> 0) by lia.
  split; [apply new_head_eq; simpl; assumption|].
  split; [reflexivity|].
  split; [apply Z.mod_pos_bound; exact Hc|].
  split; [apply Z.mod_pos_bound; exact Hr|].
  assert (Halive : ~ In (target g h) (snake g) ->
                   game_over (after (tick r g)) = false /\
                   hd_error (snake (after (tick r g))) = Some (target g h)).
  { intros Hin. destruct (food g) as [f|] eqn:Ef.
    - destruct (cell_eqb (target g h) f) eqn:Eq.
      + apply cell_eqb_eq in Eq. subst f.
        destruct (tick_eat_after r g h t) as (Hs & Hg & _); auto.
        rewrite Hs. auto.
      + apply cell_eqb_neq in Eq.
        rewrite (tick_move r g h t); auto. congruence.
    - rewrite (tick_move r g h t); auto. congruence. }
  split.
  - split.
    + intros Hover.
      destruct (cell_in (target g h) (snake g)) eqn:Hin;
        [apply cell_in_In; exact Hin|].
      apply cell_in_false in Hin. destruct (Halive Hin) as [X _]. congruence.
    + intros Hin. rewrite (tick_collide r g h t); auto.
  - intros Hin. apply Halive, Hin.
Qed.

Lemma tick_new_head_wraps_witness :
  game_over game_edge = false /\
  snake game_edge = [(29, 5); (28, 5); (27, 5)] /\
  direction game_edge = (1, 0) /\
  0 < cols game_edge /\ 0 < rows game_edge /\
  target game_edge (29, 5) = (0, 5) /\
  0 <= fst (target game_edge (29, 5)) < 30 /\
  0 <= snd (target game_edge (29, 5)) < 20.
Proof.
  split; [reflexivity|]. split; [reflexivity|]. split; [reflexivity|].
  split; [reflexivity|]. split; [reflexivity|]. split; [reflexivity|].
  destruct (tick_new_head_wraps 0 game_edge (29, 5) [(28, 5); (27, 5)])
    as (_ & _ & Hx & Hy & _); try reflexivity.
  split; [exact Hx | exact Hy].
Defined.

(** ** The pending direction in the states of a run *)

(** The pending direction is the committed one, or a request that the
    guard of [change_direction] has let through. *)
Lemma pending_handle (e : event) (g : SnakeGame) :
  next_direction g = direction g \/ ~ reverses (next_direction g) g ->
  next_direction (after (handle e g)) = direction (after (handle e g)) \/
  ~ reverses (next_direction (after (handle e g))) (after (handle e g)).
Proof.
  intros H. destruct e as [r|d|r|r]; simpl handle.
  - destruct (game_over g) eqn:Hover.
    + rewrite tick_dead by exact Hover. exact H.
    + destruct (tick_alive_direction r g Hover) as [Hd Hn].
      left. rewrite Hd, Hn. reflexivity.
  - destruct (reverses_dec d g) as [Hr|Hr].
    + rewrite change_direction_rejects by exact Hr. exact H.
    + rewrite change_direction_records by exact Hr. right. exact Hr.
  - exact H.
  - unfold on_restart, bind, gets, ret. destruct (game_over g); [|exact H].
    destruct (reset_eq r g) as [fd ->]. left. reflexivity.
Qed.

Lemma reachable_pending (g : SnakeGame) :
  reachable g ->
  next_direction g = direction g \/ ~ reverses (next_direction g) g.
Proof.
  intros (r & w & h & cs & g0 & evs & Hi & ->).
  assert (H0 : next_direction g0 = direction g0 \/
               ~ reverses (next_direction g0) g0).
  { assert (Hcs : cs <> 0) by (intros ->; discriminate Hi).
    destruct (init_eq r w h cs Hcs) as [fd Hfd]. rewrite Hfd in Hi.
    injection Hi as <-. left. reflexivity. }
  clear Hi. revert g0 H0.
  induction evs as [|e evs IH]; intros g0 H0; simpl; [exact H0|].
  apply IH, pending_handle, H0.
Qed.

(** C5, as the code has it.  [change_direction d] leaves the object as it
    is when [d] is the componentwise negation of the committed direction,
    and otherwise records [d] as the pending direction and changes nothing
    else.  With right committed, [change_direction] of left is such a
    rejected call; the [tick] after it commits the direction that was
    pending before the call when the game is alive, and keeps right when it
    is over: the active direction is right afterwards whenever right was
    the pending direction, and in every state of a run it is never left. *)
Theorem change_direction_spec (d : Cell) (g : SnakeGame) :
  (reverses d g -> change_direction d g = Returned tt g) /\
  (~ reverses d g ->
   change_direction d g = Returned tt (set_next_direction d g)) /\
  (forall r,
     direction g = (1, 0) ->
     change_direction (-1, 0) g = Returned tt g /\
     direction (after (tick r (after (change_direction (-1, 0) g)))) =
       (if game_over g then (1, 0) else next_direction g) /\
     (next_direction g = (1, 0) ->
      direction (after (tick r (after (change_direction (-1, 0) g)))) =
        (1, 0))) /\
  (reachable g ->
   forall r,
     direction g = (1, 0) ->
     direction (after (tick r (after (change_direction (-1, 0) g)))) <>
       (-1, 0)).
Proof.
  split; [apply change_direction_rejects|].
  split; [apply change_direction_records|].
  assert (Hrej : direction g = (1, 0) ->
                 change_direction (-1, 0) g = Returned tt g).
  { intros Hd. apply change_direction_rejects. unfold reverses. rewrite Hd.
    split; reflexivity. }
  assert (Ht : forall r, direction g = (1, 0) ->
               direction (after (tick r g)) =
               if game_over g then (1, 0) else next_direction g).
  { intros r Hd. destruct (game_over g) eqn:H.
    - rewrite tick_dead by exact H. exact Hd.
    - apply tick_alive_direction. exact H. }
  split.
  - intros r Hd. rewrite (Hrej Hd). simpl after.
    split; [reflexivity|]. split; [exact (Ht r Hd)|].
    intros Hn. rewrite (Ht r Hd), Hn. destruct (game_over g); reflexivity.
  - intros Hreach r Hd. rewrite (Hrej Hd). simpl after. rewrite (Ht r Hd).
    destruct (game_over g); [discriminate|].
    intros Hleft. destruct (reachable_pending g Hreach) as [Heq|Hnr].
    + rewrite Heq, Hd in Hleft. discriminate Hleft.
    + apply Hnr. unfold reverses. rewrite Hleft, Hd. split; reflexivity.
Qed.

Lemma change_direction_spec_witness :
  direction game_30x20 = (1, 0) /\ next_direction game_30x20 = (1, 0) /\
  change_direction (-1, 0) game_30x20 = Returned tt game_30x20 /\
  direction (after (tick 0 (after (change_direction (-1, 0) game_30x20))))
    = (1, 0) /\
  reachable game_30x20_up /\ direction game_30x20_up = (1, 0) /\
  direction (after (tick 0 (after (change_direction (-1, 0) game_30x20_up))))
    <> (-1, 0).
Proof.
  split; [reflexivity|]. split; [reflexivity|].
  destruct (change_direction_spec (-1, 0) game_30x20) as (_ & _ & H & _).
  destruct (H 0%nat eq_refl) as (Hrej & _ & Hright).
  split; [exact Hrej|]. split; [apply Hright; reflexivity|].
  assert (R : reachable game_30x20_up).
  { exists 0%nat, 600, 400, 20, game_30x20, [ChangeDirection (0, -1)].
    split; reflexivity. }
  split; [exact R|]. split; [reflexivity|].
  destruct (change_direction_spec (-1, 0) game_30x20_up) as (_ & _ & _ & Hl).
  exact (Hl R 0%nat eq_refl).
Defined.

(** C5 as stated fails: after the Up key on the default game, right is the
    committed direction and up the pending one; the call with left is
    rejected and the next [tick] makes up, not right, the active
    direction. *)
Lemma rejected_reverse_then_tick_turns :
  __init__ 0 600 400 20 = inr game_30x20 /\
  run [ChangeDirection (0, -1)] game_30x20 = game_30x20_up /\
  direction game_30x20_up = (1, 0) /\
  after (change_direction (-1, 0) game_30x20_up) = game_30x20_up /\
  direction (after (tick 0 (after (change_direction (-1, 0) game_30x20_up))))
    = (0, -1) /\
  direction (after (tick 0 (after (change_direction (-1, 0) game_30x20_up))))
    <> (1, 0).
Proof.
  repeat (split; [reflexivity|]). intros X. discriminate X.
Qed.

(** C6.  In every state of a run, a tick of a live game on a grid with
    non-zero dimensions whose new head is not on the body returns and leaves
    the game alive.  When the new head is the food cell the new body is the
    new head in front of the whole old body, one cell longer; otherwise it
    is the new head in front of the old body without its last cell, of the
    same length. *)
Theorem tick_length (r : nat) (g : SnakeGame) (h : Cell) (t : list Cell) :
  reachable g ->
  game_over g = false ->
  snake g = h :: t ->
  cols g <> 0 -> rows g <> 0 ->
  ~ In (target g h) (snake g) ->
  exists g',
    tick r g = Returned tt g' /\
    game_over g' = false /\
    (food g = Some (target g h) ->
     snake g' = target g h :: snake g /\
     length (snake g') = S (length (snake g))) /\
    (food g <> Some (target g h) ->
     snake g' = target g h :: removelast (snake g) /\
     length (snake g') = length (snake g)).
Proof.
  intros Hreach H E Hc Hr Hin.
  destruct (reachable_inv g Hreach) as (_ & _ & _ & Hsp).
  destruct (food g) as [f|] eqn:Ef.
  - destruct (cell_eqb (target g h) f) eqn:Eq.
    + apply cell_eqb_eq in Eq. subst f.
      rewrite (tick_eat r g h t) by (assumption || lia).
      rewrite place_food_eq. eexists. split; [reflexivity|].
      simpl. split; [exact H|]. split; [auto | congruence].
    + apply cell_eqb_neq in Eq.
      rewrite (tick_move r g h t) by (assumption || congruence).
      eexists. split; [reflexivity|]. simpl. split; [exact H|].
      split; [congruence|]. intros _. split; [reflexivity|].
      rewrite E. rewrite length_removelast_cons. reflexivity.
  - rewrite (tick_move r g h t) by (assumption || congruence).
    eexists. split; [reflexivity|]. simpl. split; [exact H|].
    split; [congruence|]. intros _. split; [reflexivity|].
    rewrite E. rewrite length_removelast_cons. reflexivity.
Qed.

Lemma tick_length_witness :
  reachable game_4x1 /\ reachable game_30x20 /\
  (exists g', tick 0 game_4x1 = Returned tt g' /\
              length (snake g') = 4%nat) /\
  (exists g', tick 0 game_30x20 = Returned tt g' /\
              length (snake g') = 3%nat).
Proof.
  assert (R1 : reachable game_4x1).
  { exists 0%nat, 80, 20, 20, game_4x1, []. split; reflexivity. }
  assert (R2 : reachable game_30x20).
  { exists 0%nat, 600, 400, 20, game_30x20, []. split; reflexivity. }
  split; [exact R1|]. split; [exact R2|]. split.
  - destruct (tick_length 0 game_4x1 (2, 0) [(1, 0); (0, 0)] R1)
      as (g' & Ht & _ & Heat & _); try reflexivity.
    + simpl; lia.
    + simpl; lia.
    + vm_compute. intros [X|[X|[X|[]]]]; discriminate X.
    + exists g'. split; [exact Ht|]. apply Heat. reflexivity.
  - destruct (tick_length 0 game_30x20 (15, 10) [(14, 10); (13, 10)] R2)
      as (g' & Ht & _ & _ & Hmv); try reflexivity.
    + simpl; lia.
    + simpl; lia.
    + vm_compute. intros [X|[X|[X|[]]]]; discriminate X.
    + exists g'. split; [exact Ht|]. apply Hmv. vm_compute. discriminate.
Defined.

(** ** The interval across a run *)

Lemma tick_speed (r : nat) (g : SnakeGame) :
  inv g ->
  speed (after (tick r g)) = speed g \/
  speed (after (tick r g)) = Z.max 30 (floor_95_percent (speed g)).
Proof.
  intros (_ & _ & _ & Hsp).
  destruct (game_over g) eqn:H.
  { rewrite tick_dead by assumption. left; reflexivity. }
  destruct (snake g) as [|h t] eqn:E.
  { rewrite tick_no_head by assumption. left; reflexivity. }
  destruct (Z.eq_dec (cols g) 0) as [Hc|Hc].
  { rewrite (tick_zero_grid r g h t) by auto. left; reflexivity. }
  destruct (Z.eq_dec (rows g) 0) as [Hr|Hr].
  { rewrite (tick_zero_grid r g h t) by auto. left; reflexivity. }
  destruct (cell_in (target g h) (snake g)) eqn:Hin.
  { apply cell_in_In in Hin. rewrite (tick_collide r g h t) by assumption.
    left; reflexivity. }
  apply cell_in_false in Hin.
  destruct (food g) as [f|] eqn:Ef.
  - destruct (cell_eqb (target g h) f) eqn:Eq.
    + apply cell_eqb_eq in Eq. subst f.
      rewrite (tick_eat r g h t) by (assumption || lia).
      right; reflexivity.
    + apply cell_eqb_neq in Eq.
      rewrite (tick_move r g h t) by (assumption || congruence).
      left; reflexivity.
  - rewrite (tick_move r g h t) by (assumption || congruence).
    left; reflexivity.
Qed.

Lemma speed_handle (e : event) (g : SnakeGame) :
  inv g -> is_restart e = false ->
  speed (after (handle e g)) <= speed g.
Proof.
  intros Hi He. destruct e as [r|d|r|r]; simpl in He; simpl handle;
    try discriminate.
  - pose proof (floor_95_percent_bounds (speed g)).
    pose proof (tick_speed r g Hi) as Ht.
    destruct Hi as (_ & _ & _ & Hsp).
    destruct Ht as [->| ->]; lia.
  - unfold change_direction, bind, gets, modify, ret.
    destruct (_ && _); simpl; lia.
  - simpl; lia.
Qed.

Lemma speed_run (evs : list event) (g : SnakeGame) :
  inv g -> forallb (fun e => negb (is_restart e)) evs = true ->
  30 <= speed (run evs g) <= speed g.
Proof.
  revert g. induction evs as [|e evs IH]; intros g Hi Hev; simpl.
  - destruct Hi as (_ & _ & _ & Hsp). lia.
  - simpl in Hev. apply andb_true_iff in Hev. destruct Hev as [He Hev].
    apply negb_true_iff in He.
    pose proof (speed_handle e g Hi He).
    pose proof (IH _ (inv_handle e g Hi) Hev). lia.
Qed.

(** From 120 the interval reaches the floor 30 at the 24th eaten food and
    stays there. *)
Lemma speed_ramp_reaches_floor :
  map (fun n => Nat.iter n (fun sp => Z.max 30 (floor_95_percent sp)) 120)
      [1; 2; 3; 23; 24; 25; 100]%nat
  = [114; 108; 102; 31; 30; 30; 30].
Proof. vm_compute. reflexivity. Qed.

(** C7.  In every state of a run: the float expression
    [int(speed * 0.95)] returns the exact floor of 95 percent of the
    interval; a tick that eats the food returns with the score one higher
    and the interval set to the larger of 30 and that floor, which is at
    least 30 and at most the interval before, and is 114 when the interval
    was 120; and over any further calls without a restart the interval
    stays at least 30 and never rises. *)
Theorem eat_score_speed (g : SnakeGame) :
  reachable g ->
  int_speed_times_0_95 (speed g) g
    = Returned (floor_95_percent (speed g)) g /\
  (forall r h t,
     game_over g = false ->
     snake g = h :: t ->
     cols g <> 0 -> rows g <> 0 ->
     ~ In (target g h) (snake g) ->
     food g = Some (target g h) ->
     exists g',
       tick r g = Returned tt g' /\
       score g' = score g + 1 /\
       speed g' = Z.max 30 (floor_95_percent (speed g)) /\
       30 <= speed g' <= speed g /\
       (speed g = 120 -> speed g' = 114)) /\
  (forall evs,
     forallb (fun e => negb (is_restart e)) evs = true ->
     30 <= speed (run evs g) <= speed g).
Proof.
  intros Hreach. pose proof (reachable_inv g Hreach) as Hi.
  destruct Hi as (Hnd & Hlen & Hsc & Hsp).
  split; [apply int_speed_times_0_95_exact; lia|]. split.
  - intros r h t H E Hc Hr Hin Hf.
    rewrite (tick_eat r g h t) by (assumption || lia).
    rewrite place_food_eq. eexists. split; [reflexivity|]. simpl.
    pose proof (floor_95_percent_bounds (speed g)).
    split; [reflexivity|]. split; [reflexivity|]. split; [lia|].
    intros ->. reflexivity.
  - intros evs Hev. apply speed_run; [|exact Hev].
    repeat split; assumption || lia.
Qed.

Lemma eat_score_speed_witness :
  reachable game_4x1 /\
  speed game_4x1 = 120 /\ score game_4x1 = 0 /\
  exists g', tick 0 game_4x1 = Returned tt g' /\
             score g' = 1 /\ speed g' = 114.
Proof.
  assert (R : reachable game_4x1).
  { exists 0%nat, 80, 20, 20, game_4x1, []. split; reflexivity. }
  split; [exact R|]. split; [reflexivity|]. split; [reflexivity|].
  destruct (eat_score_speed game_4x1 R) as (_ & Heat & _).
  destruct (Heat 0%nat (2, 0) [(1, 0); (0, 0)])
    as (g' & Ht & Hs & _ & _ & H114); try reflexivity.
  - simpl; lia.
  - simpl; lia.
  - vm_compute. intros [X|[X|[X|[]]]]; discriminate X.
  - exists g'. split; [exact Ht|]. split; [exact Hs|]. apply H114. reflexivity.
Defined.

(** C9, as the code has it.  The constructor validates nothing: with a
    non-zero [cell_size] it returns, for any [width] and [height], a live
    game with score 0, interval 120 and the three-cell snake of [reset] on a
    grid of [width // cell_size] by [height // cell_size] cells, however
    small or negative these are.  Only [cell_size = 0] fails, with the
    ZeroDivisionError of the integer division. *)
Theorem init_no_validation (r : nat) (width height cell_size : Z) :
  (cell_size = 0 ->
   __init__ r width height cell_size = inl ZeroDivisionError) /\
  (cell_size <> 0 ->
   exists g,
     __init__ r width height cell_size = inr g /\
     cols g = width / cell_size /\ rows g = height / cell_size /\
     game_over g = false /\ score g = 0 /\ speed g = 120 /\
     direction g = (1, 0) /\ next_direction g = (1, 0) /\
     snake g = [(cols g / 2 - 0, rows g / 2); (cols g / 2 - 1, rows g / 2);
                (cols g / 2 - 2, rows g / 2)]).
Proof.
  split.
  - intros ->. reflexivity.
  - intros H. destruct (init_eq r width height cell_size H) as [fd ->].
    eexists. split; [reflexivity|]. simpl. repeat split; reflexivity.
Qed.

Lemma init_no_validation_witness :
  20 <> 0 /\
  exists g, __init__ 0 600 400 20 = inr g /\ cols g = 30 /\ rows g = 20 /\
            game_over g = false.
Proof.
  split; [lia|].
  destruct (init_no_validation 0 600 400 20) as (_ & H).
  destruct H as (g & Hi & Hc & Hr & Hg & _); [lia|].
  exists g. split; [exact Hi|]. split; [exact Hc|]. split; [exact Hr|exact Hg].
Defined.

(** C9 as stated fails: a 40 x 400 window with 20-pixel cells has 2
    columns, a 10 x 10 window has none, and in both cases the constructor
    returns a live game; the three-cell snake then has cells outside the
    grid. *)
Lemma init_accepts_small_grid :
  __init__ 0 40 400 20 =
    inr (mkGame 2 20 [(1, 10); (0, 10); (-1, 10)] (1, 0) (1, 0)
                (Some (0, 0)) false 120 0) /\
  __init__ 0 10 10 20 =
    inr (mkGame 0 0 [(0, 0); (-1, 0); (-2, 0)] (1, 0) (1, 0)
                None false 120 0).
Proof. split; reflexivity. Qed.

(** C10.  In every state of a run, a live game has a body of exactly
    score plus three cells. *)
Theorem reachable_length_score (g : SnakeGame) :
  reachable g -> game_over g = false ->
  Z.of_nat (length (snake g)) = score g + 3.
Proof.
  intros Hr _. destruct (reachable_inv g Hr) as (_ & Hlen & _). exact Hlen.
Qed.

Lemma reachable_length_score_witness :
  reachable game_4x1_fed /\ game_over game_4x1_fed = false /\
  Z.of_nat (length (snake game_4x1_fed)) = score game_4x1_fed + 3.
Proof.
  assert (R : reachable game_4x1_fed).
  { exists 0%nat, 80, 20, 20, game_4x1, [Tick 0]. split; reflexivity. }
  split; [exact R|]. split; [reflexivity|].
  apply (reachable_length_score game_4x1_fed R). reflexivity.
Defined.

(** * Further properties of the simulation *)

(** ** The paths of [tick] in a state of a run *)

Lemma inv_snake_cons (g : SnakeGame) :
  inv g -> exists h t, snake g = h :: t.
Proof.
  intros (_ & Hlen & Hsc & _). destruct (snake g) as [|h t].
  - simpl in Hlen. lia.
  - exists h, t. reflexivity.
Qed.

Lemma tick_paths (r : nat) (g : SnakeGame) :
  inv g ->
  (game_over g = true /\ tick r g = Returned tt g) \/
  (game_over g = false /\ (cols g = 0 \/ rows g = 0) /\
   tick r g = Raised ZeroDivisionError (set_direction (next_direction g) g)) \/
  (exists h t,
      game_over g = false /\ snake g = h :: t /\
      cols g <> 0 /\ rows g <> 0 /\
      ((In (target g h) (snake g) /\
        tick r g =
        Returned tt (set_game_over true (set_direction (next_direction g) g)))
       \/
       (~ In (target g h) (snake g) /\ food g <> Some (target g h) /\
        tick r g =
        Returned tt (set_snake (target g h :: removelast (snake g))
                               (set_direction (next_direction g) g)))
       \/
       (~ In (target g h) (snake g) /\ food g = Some (target g h) /\
        tick r g =
        place_food r
          (set_speed (Z.max 30 (floor_95_percent (speed g)))
             (set_score (score g + 1)
                (set_snake (target g h :: snake g)
                   (set_direction (next_direction g) g))))))).
Proof.
  intros Hi. destruct (inv_snake_cons g Hi) as (h & t & E).
  destruct Hi as (_ & _ & _ & Hsp).
  destruct (game_over g) eqn:H.
  { left. split; [reflexivity | apply tick_dead; exact H]. }
  right.
  destruct (Z.eq_dec (cols g) 0) as [Hc|Hc].
  { left. split; [reflexivity|]. split; [left; exact Hc|].
    apply (tick_zero_grid r g h t); auto. }
  destruct (Z.eq_dec (rows g) 0) as [Hr|Hr].
  { left. split; [reflexivity|]. split; [right; exact Hr|].
    apply (tick_zero_grid r g h t); auto. }
  right. exists h, t. repeat (split; [assumption || reflexivity|]).
  destruct (cell_in (target g h) (snake g)) eqn:Hin.
  { apply cell_in_In in Hin. left. split; [exact Hin|].
    apply (tick_collide r g h t); assumption. }
  apply cell_in_false in Hin. right.
  destruct (food g) as [f|] eqn:Ef.
  - destruct (cell_eqb (target g h) f) eqn:Eq.
    + apply cell_eqb_eq in Eq. subst f. right.
      split; [exact Hin|]. split; [reflexivity|].
      apply (tick_eat r g h t); assumption || lia.
    + apply cell_eqb_neq in Eq. left.
      split; [exact Hin|]. split; [congruence|].
      apply (tick_move r g h t); assumption || congruence.
  - left. split; [exact Hin|]. split; [discriminate|].
    apply (tick_move r g h t); assumption || congruence.
Qed.

(** Induction over the runs of the program, with [inv] at hand. *)
Lemma reachable_invariant (P : SnakeGame -> Prop) :
  (forall r width height cell_size g0,
      __init__ r width height cell_size = inr g0 -> P g0) ->
  (forall e g, inv g -> P g -> P (after (handle e g))) ->
  forall g, reachable g -> P g.
Proof.
  intros Hinit Hstep g (r & w & h & cs & g0 & evs & Hi & ->).
  assert (H0 : inv g0 /\ P g0).
  { split; [eapply inv_init; exact Hi | eapply Hinit; exact Hi]. }
  clear Hi. revert g0 H0.
  induction evs as [|e evs IH]; intros g0 [Hv Hp]; simpl; [exact Hp|].
  apply IH. split; [apply inv_handle; exact Hv | apply Hstep; assumption].
Qed.

Lemma key_reachable_invariant (P : SnakeGame -> Prop) :
  (forall r width height cell_size g0,
      __init__ r width height cell_size = inr g0 -> P g0) ->
  (forall e g, key_event e -> inv g -> P g -> P (after (handle e g))) ->
  forall g, key_reachable g -> P g.
Proof.
  intros Hinit Hstep g (r & w & h & cs & g0 & evs & Hi & Hk & ->).
  assert (H0 : inv g0 /\ P g0).
  { split; [eapply inv_init; exact Hi | eapply Hinit; exact Hi]. }
  clear Hi. revert g0 H0.
  induction Hk as [|e evs He Hk IH]; intros g0 [Hv Hp]; simpl; [exact Hp|].
  apply IH. split; [apply inv_handle; exact Hv | apply Hstep; assumption].
Qed.

Lemma key_reachable_reachable (g : SnakeGame) :
  key_reachable g -> reachable g.
Proof.
  intros (r & w & h & cs & g0 & evs & Hi & _ & ->).
  exists r, w, h, cs, g0, evs. split; [exact Hi | reflexivity].
Qed.

(** Every handler leaves the grid dimensions alone. *)
Lemma handle_grid (e : event) (g : SnakeGame) :
  inv g ->
  cols (after (handle e g)) = cols g /\ rows (after (handle e g)) = rows g.
Proof.
  intros Hi. destruct e as [r|d|r|r]; simpl handle.
  - destruct (tick_paths r g Hi)
      as [[_ ->]|[(_ & _ & ->)|(h & t & _ & _ & _ & _ &
                                [[_ ->]|[(_ & _ & ->)|(_ & _ & ->)]])]];
      split; reflexivity.
  - unfold change_direction, bind, gets, modify, ret.
    destruct (_ && _); split; reflexivity.
  - split; reflexivity.
  - unfold on_restart, bind, gets, ret. destruct (game_over g).
    + destruct (reset_eq r g) as [fd ->]. split; reflexivity.
    + split; reflexivity.
Qed.

Lemma init_shape (r : nat) (width height cell_size : Z) (g : SnakeGame) :
  __init__ r width height cell_size = inr g ->
  g = after (reset r g) /\
  snake g = [(cols g / 2 - 0, rows g / 2); (cols g / 2 - 1, rows g / 2);
             (cols g / 2 - 2, rows g / 2)] /\
  direction g = (1, 0) /\ next_direction g = (1, 0) /\
  game_over g = false /\ speed g = 120 /\ score g = 0.
Proof.
  unfold __init__. destruct (cell_size =? 0); [discriminate|].
  intros X. inversion X; subst. clear X.
  unfold reset, bind, gets, modify, place_food. simpl.
  repeat split; reflexivity.
Qed.

(** ** The food *)

Lemma food_inv_place_food (r : nat) (g : SnakeGame) :
  food_inv (after (place_food r g)).
Proof.
  rewrite place_food_eq. unfold food_inv, in_grid. simpl.
  pose proof (In_empty_cells g) as Hin.
  destruct (empty_cells g) as [|a l] eqn:E.
  - split; [discriminate|]. intros _ c Hc.
    destruct (cell_in c (snake g)) eqn:Hs; [apply cell_in_In; exact Hs|].
    apply cell_in_false in Hs. exfalso. apply (proj2 (Hin c)). tauto.
  - split.
    + intros c Hc. apply random_choice_In in Hc. apply Hin in Hc. tauto.
    + destruct (random_choice_cons r a l) as [b ->]. discriminate.
Qed.

Lemma food_inv_frame (g g' : SnakeGame) :
  cols g' = cols g -> rows g' = rows g ->
  snake g' = snake g -> food g' = food g ->
  food_inv g -> food_inv g'.
Proof. unfold food_inv, in_grid. intros -> -> -> ->. auto. Qed.

Lemma target_in_grid (g : SnakeGame) (h : Cell) :
  0 < cols g -> 0 < rows g -> in_grid g (target g h).
Proof.
  intros Hc Hr. unfold in_grid, target, wrapped. simpl.
  split; apply Z.mod_pos_bound; assumption.
Qed.

Lemma reset_food (r : nat) (g : SnakeGame) :
  let s := [(cols g / 2 - 0, rows g / 2); (cols g / 2 - 1, rows g / 2);
            (cols g / 2 - 2, rows g / 2)] in
  let g1 := mkGame (cols g) (rows g) s (1, 0) (1, 0) (food g) (game_over g)
                   (speed g) (score g) in
  reset r g =
  Returned tt (mkGame (cols g) (rows g) s (1, 0) (1, 0)
                      (food (after (place_food r g1))) false 120 0).
Proof. reflexivity. Qed.

Lemma food_inv_reset (r : nat) (g : SnakeGame) :
  food_inv (after (reset r g)).
Proof.
  rewrite reset_food. cbv zeta.
  match goal with
  | |- context [place_food r ?s] => pose proof (food_inv_place_food r s) as Hp
  end.
  revert Hp. apply food_inv_frame; reflexivity.
Qed.

Lemma food_inv_handle (e : event) (g : SnakeGame) :
  inv g -> food_inv g -> food_inv (after (handle e g)).
Proof.
  intros Hi Hf. destruct e as [r|d|r|r]; simpl handle.
  - destruct (tick_paths r g Hi)
      as [[_ ->]|[(_ & _ & ->)|(h & t & H & E & Hc & Hr &
                                [[_ ->]|[(Hn & Hfd & ->)|(_ & _ & ->)]])]].
    + exact Hf.
    + revert Hf. apply food_inv_frame; reflexivity.
    + revert Hf. apply food_inv_frame; reflexivity.
    + destruct Hf as [Hsome Hnone]. unfold food_inv, in_grid in *. simpl.
      split.
      * intros c Hc'. destruct (Hsome c Hc') as [Hg Hnot].
        split; [exact Hg|]. intros [X|X].
        -- subst c. congruence.
        -- apply In_removelast in X. contradiction.
      * intros Hno c Hg. exfalso.
        assert (0 < cols g /\ 0 < rows g) as [Hc0 Hr0] by lia.
        apply Hn. apply (Hnone Hno). apply target_in_grid; assumption.
    + apply food_inv_place_food.
  - revert Hf. unfold change_direction, bind, gets, modify, ret.
    destruct (_ && _); apply food_inv_frame; reflexivity.
  - apply food_inv_place_food.
  - unfold on_restart, bind, gets, ret. destruct (game_over g); [|exact Hf].
    apply food_inv_reset.
Qed.

Lemma food_inv_init (r : nat) (width height cell_size : Z) (g : SnakeGame) :
  __init__ r width height cell_size = inr g -> food_inv g.
Proof.
  intros Hi. apply init_shape in Hi. destruct Hi as [-> _].
  apply food_inv_reset.
Qed.

Lemma reachable_food_inv (g : SnakeGame) : reachable g -> food_inv g.
Proof.
  apply reachable_invariant.
  - apply food_inv_init.
  - apply food_inv_handle.
Qed.

(** X1.  In every state of a run the food, when there is one, is a cell of
    the grid that the snake does not occupy, and there is no food only when
    every cell of the grid is occupied by the snake. *)
Theorem reachable_food_free (g : SnakeGame) :
  reachable g ->
  (forall c, food g = Some c -> in_grid g c /\ ~ In c (snake g)) /\
  (food g = None -> forall c, in_grid g c -> In c (snake g)).
Proof.
  revert g. apply (reachable_invariant food_inv).
  - apply food_inv_init.
  - apply food_inv_handle.
Qed.

Lemma reachable_food_free_witness :
  reachable game_30x20 /\ food game_30x20 = Some (0, 0) /\
  in_grid game_30x20 (0, 0) /\ ~ In (0, 0) (snake game_30x20).
Proof.
  assert (R : reachable game_30x20).
  { exists 0%nat, 600, 400, 20, game_30x20, []. split; reflexivity. }
  split; [exact R|]. split; [reflexivity|].
  apply (reachable_food_free game_30x20 R). reflexivity.
Defined.

(** X2.  Filling the grid is not a win: in a state of a run on a grid with
    positive dimensions, when the game is alive and has no food (no free
    cell was left to place it), the next [tick] returns with [game_over]
    set and the body and the score as they were. *)
Theorem full_grid_tick_ends (r : nat) (g : SnakeGame) :
  reachable g ->
  game_over g = false ->
  0 < cols g -> 0 < rows g ->
  food g = None ->
  exists g',
    tick r g = Returned tt g' /\
    game_over g' = true /\ snake g' = snake g /\ score g' = score g.
Proof.
  intros Hreach H Hc Hr Hf.
  pose proof (reachable_inv g Hreach) as Hi.
  destruct (reachable_food_inv g Hreach) as [_ Hnone].
  destruct (inv_snake_cons g Hi) as (h & t & E).
  assert (Hin : In (target g h) (snake g)).
  { apply (Hnone Hf). apply target_in_grid; assumption. }
  rewrite (tick_collide r g h t) by (assumption || lia).
  eexists. split; [reflexivity|]. simpl. auto.
Qed.

Lemma full_grid_tick_ends_witness :
  reachable game_4x1_fed /\ food game_4x1_fed = None /\
  exists g', tick 0 game_4x1_fed = Returned tt g' /\ game_over g' = true.
Proof.
  assert (R : reachable game_4x1_fed).
  { exists 0%nat, 80, 20, 20, game_4x1, [Tick 0]. split; reflexivity. }
  split; [exact R|]. split; [reflexivity|].
  destruct (full_grid_tick_ends 0 game_4x1_fed R) as (g' & Ht & Hg & _);
    try reflexivity.
  exists g'. split; [exact Ht | exact Hg].
Defined.

(** ** The body stays on the grid *)

Lemma reset_snake_in_grid (g : SnakeGame) :
  4 <= cols g -> 1 <= rows g ->
  Forall (in_grid g)
         [(cols g / 2 - 0, rows g / 2); (cols g / 2 - 1, rows g / 2);
          (cols g / 2 - 2, rows g / 2)].
Proof.
  intros Hc Hr. unfold in_grid. repeat constructor; simpl;
    Z.div_mod_to_equations; lia.
Qed.

Lemma grid_handle (e : event) (g : SnakeGame) :
  inv g ->
  (4 <= cols g -> 1 <= rows g -> Forall (in_grid g) (snake g)) ->
  4 <= cols (after (handle e g)) -> 1 <= rows (after (handle e g)) ->
  Forall (in_grid (after (handle e g))) (snake (after (handle e g))).
Proof.
  intros Hi Hg.
  assert (Hfr : forall g', cols g' = cols g -> rows g' = rows g ->
                           snake g' = snake g ->
                           4 <= cols g' -> 1 <= rows g' ->
                           Forall (in_grid g') (snake g')).
  { intros g' Hc Hr Hs. unfold in_grid. rewrite Hc, Hr, Hs. exact Hg. }
  destruct e as [r|d|r|r]; simpl handle.
  - destruct (tick_paths r g Hi)
      as [[_ ->]|[(_ & _ & ->)|(h & t & H & E & Hc & Hr &
                                [[_ ->]|[(Hn & Hfd & ->)|(_ & _ & ->)]])]];
      try (apply Hfr; reflexivity).
    + simpl. intros Hc0 Hr0. constructor.
      * apply (target_in_grid g h); lia.
      * specialize (Hg Hc0 Hr0). rewrite Forall_forall in *.
        intros c X. apply In_removelast in X. apply Hg, X.
    + rewrite place_food_eq. simpl. intros Hc0 Hr0. constructor.
      * apply (target_in_grid g h); lia.
      * apply Hg; assumption.
  - unfold change_direction, bind, gets, modify, ret.
    destruct (_ && _); apply Hfr; reflexivity.
  - apply Hfr; reflexivity.
  - unfold on_restart, bind, gets, ret. destruct (game_over g); [|exact Hg].
    rewrite reset_food. cbv zeta. simpl. intros Hc0 Hr0.
    apply (reset_snake_in_grid g Hc0 Hr0).
Qed.

Lemma reachable_grid (g : SnakeGame) :
  reachable g ->
  4 <= cols g -> 1 <= rows g -> Forall (in_grid g) (snake g).
Proof.
  revert g.
  apply (reachable_invariant
           (fun g => 4 <= cols g -> 1 <= rows g ->
                     Forall (in_grid g) (snake g))).
  - intros r w h cs g0 Hi Hc Hr.
    destruct (init_shape r w h cs g0 Hi) as (_ & -> & _).
    apply reset_snake_in_grid; assumption.
  - intros e g Hi Hg. apply grid_handle; assumption.
Qed.

(** X3.  On a grid with at least 4 columns and 1 row, every cell of the
    body lies on the grid in every state of a run. *)
Theorem reachable_snake_in_grid (g : SnakeGame) :
  reachable g -> 4 <= cols g -> 1 <= rows g ->
  forall c, In c (snake g) -> 0 <= fst c < cols g /\ 0 <= snd c < rows g.
Proof.
  intros Hr Hc Hrw c Hin.
  pose proof (reachable_grid g Hr Hc Hrw) as H.
  rewrite Forall_forall in H. exact (H c Hin).
Qed.

Lemma reachable_snake_in_grid_witness :
  reachable game_edge /\ 4 <= cols game_edge /\ 1 <= rows game_edge /\
  0 <= 29 < cols game_edge /\ 0 <= 5 < rows game_edge.
Proof.
  assert (R : reachable game_edge).
  { exists 0%nat, 600, 400, 20, game_30x20,
      (ChangeDirection (0, -1) :: repeat (Tick 0) 5 ++
       ChangeDirection (1, 0) :: repeat (Tick 0) 14).
    split; [reflexivity | vm_compute; reflexivity]. }
  split; [exact R|]. split; [simpl; lia|]. split; [simpl; lia|].
  apply (reachable_snake_in_grid game_edge R ltac:(simpl; lia)
           ltac:(simpl; lia) (29, 5)).
  left. reflexivity.
Defined.

(** X4.  The snake that the constructor builds lies on the grid exactly
    when the grid has at least 4 columns and at least 1 row; with 3 columns
    or fewer its last cell has a negative column. *)
Theorem init_snake_in_grid_iff
  (r : nat) (width height cell_size : Z) (g : SnakeGame) :
  __init__ r width height cell_size = inr g ->
  ((forall c, In c (snake g) -> in_grid g c) <->
   4 <= cols g /\ 1 <= rows g) /\
  (cols g <= 3 -> exists x y, last (snake g) (0, 0) = (x, y) /\ x < 0).
Proof.
  intros Hi. destruct (init_shape r width height cell_size g Hi)
    as (_ & Hs & _).
  split; [split|].
  - intros H.
    assert (H0 : in_grid g (cols g / 2 - 0, rows g / 2)).
    { apply H. rewrite Hs. left; reflexivity. }
    assert (H2 : in_grid g (cols g / 2 - 2, rows g / 2)).
    { apply H. rewrite Hs. right; right; left; reflexivity. }
    unfold in_grid in H0, H2. simpl in H0, H2.
    Z.div_mod_to_equations. lia.
  - intros [Hc Hr]. apply Forall_forall. rewrite Hs.
    apply reset_snake_in_grid; assumption.
  - intros Hc. rewrite Hs. simpl. eexists. eexists.
    split; [reflexivity|]. Z.div_mod_to_equations. lia.
Qed.

Lemma init_snake_in_grid_iff_witness :
  __init__ 0 60 20 20 = inr game_3x1 /\
  exists x y, last (snake game_3x1) (0, 0) = (x, y) /\ x < 0.
Proof.
  split; [reflexivity|].
  apply (init_snake_in_grid_iff 0 60 20 20 game_3x1 eq_refl). simpl. lia.
Defined.

(** X5.  In a state of a run [tick] raises exactly when the game is alive
    and the grid has a zero dimension; what it raises is ZeroDivisionError,
    after it has committed the pending direction and before it has touched
    anything else.  In every other state of a run it returns. *)
Theorem reachable_tick_raises (r : nat) (g : SnakeGame) :
  reachable g ->
  (game_over g = false /\ (cols g = 0 \/ rows g = 0) ->
   tick r g = Raised ZeroDivisionError (set_direction (next_direction g) g))
  /\
  (~ (game_over g = false /\ (cols g = 0 \/ rows g = 0)) ->
   exists g', tick r g = Returned tt g').
Proof.
  intros Hreach. pose proof (reachable_inv g Hreach) as Hi.
  destruct (tick_paths r g Hi)
    as [[H Ht]|[(H & Hz & Ht)|(h & t & H & E & Hc & Hr &
                               [[_ Ht]|[(_ & _ & Ht)|(_ & _ & Ht)]])]].
  - split; [intros [X _]; congruence|]. intros _. eexists; exact Ht.
  - split; [intros _; exact Ht|]. intros X. exfalso. apply X. tauto.
  - split; [intros [_ [X|X]]; contradiction|]. intros _. eexists; exact Ht.
  - split; [intros [_ [X|X]]; contradiction|]. intros _. eexists; exact Ht.
  - split; [intros [_ [X|X]]; contradiction|]. intros _.
    rewrite Ht, place_food_eq. eexists; reflexivity.
Qed.

Lemma reachable_tick_raises_witness :
  reachable game_0x0 /\
  tick 0 game_0x0 = Raised ZeroDivisionError game_0x0.
Proof.
  assert (R : reachable game_0x0).
  { exists 0%nat, 10, 10, 20, game_0x0, []. split; reflexivity. }
  split; [exact R|].
  apply (reachable_tick_raises 0 game_0x0 R).
  split; [reflexivity | left; reflexivity].
Defined.

(** ** The reversal guard *)

Lemma key_direction_not_self_reverse (d : Cell) (g : SnakeGame) :
  key_direction d -> direction g = d -> ~ reverses d g.
Proof.
  unfold reverses. intros Hk Ed [H1 H2]. rewrite Ed in H1, H2.
  destruct Hk as [X|[X|[X|X]]]; rewrite X in H1, H2; simpl in *; lia.
Qed.

Lemma neck_inv_commit (g g' : SnakeGame) :
  neck_inv g ->
  direction g' = next_direction g -> next_direction g' = next_direction g ->
  (game_over g' = false -> cols g' <> 0 -> rows g' <> 0 -> forall h n t,
     snake g' = h :: n :: t ->
     exists kx ky,
       fst h = fst n + fst (direction g') + kx * cols g' /\
       snd h = snd n + snd (direction g') + ky * rows g') ->
  neck_inv g'.
Proof.
  intros (Hd & Hn & Hrev & _) Ed En Hneck. unfold neck_inv.
  rewrite En. split; [rewrite Ed; exact Hn|]. split; [exact Hn|].
  split; [|exact Hneck].
  apply key_direction_not_self_reverse; assumption.
Qed.

Lemma neck_inv_frame (g g' : SnakeGame) :
  cols g' = cols g -> rows g' = rows g -> snake g' = snake g ->
  direction g' = direction g -> next_direction g' = next_direction g ->
  game_over g' = game_over g ->
  neck_inv g -> neck_inv g'.
Proof.
  unfold neck_inv, reverses. intros -> -> -> -> -> ->. auto.
Qed.

Lemma neck_inv_reset (r : nat) (g : SnakeGame) : neck_inv (after (reset r g)).
Proof.
  rewrite reset_food. cbv zeta. unfold neck_inv, key_direction, reverses.
  simpl. split; [auto|]. split; [auto|]. split; [intros [X _]; lia|].
  intros _ _ _ h n t X. inversion X; subst. exists 0, 0. simpl. lia.
Qed.

Lemma wrapped_step (g : SnakeGame) (h : Cell) :
  exists kx ky,
    fst (target g h) = fst h + fst (next_direction g) + kx * cols g /\
    snd (target g h) = snd h + snd (next_direction g) + ky * rows g.
Proof.
  unfold target, wrapped. simpl.
  exists (- ((fst h + fst (next_direction g)) / cols g)),
         (- ((snd h + snd (next_direction g)) / rows g)).
  split.
  - pose proof (Z_div_mod_eq_full (fst h + fst (next_direction g)) (cols g)).
    lia.
  - pose proof (Z_div_mod_eq_full (snd h + snd (next_direction g)) (rows g)).
    lia.
Qed.

Lemma neck_inv_handle (e : event) (g : SnakeGame) :
  key_event e -> inv g -> neck_inv g -> neck_inv (after (handle e g)).
Proof.
  intros He Hi Hn.
  destruct (inv_snake_cons g Hi) as (h0 & t0 & E0).
  assert (Hlen : (3 <= length (snake g))%nat).
  { destruct Hi as (_ & Hl & Hs & _). lia. }
  destruct e as [r|d|r|r]; simpl handle.
  - destruct (tick_paths r g Hi)
      as [[_ ->]|[(_ & Hz & ->)|(h & t & H & E & Hc & Hr &
                                 [[_ ->]|[(Hnin & Hfd & ->)|(_ & _ & Ht)]])]].
    + exact Hn.
    + apply (neck_inv_commit g); try reflexivity; [exact Hn|].
      simpl. intros _ Hc Hr. lia.
    + apply (neck_inv_commit g); try reflexivity; [exact Hn|].
      simpl. discriminate.
    + apply (neck_inv_commit g); try reflexivity; [exact Hn|].
      simpl. intros _ _ _ h' n' t' X. rewrite E in X, Hlen.
      destruct t as [|b t]; [simpl in Hlen; lia|].
      rewrite removelast_cons_cons in X. inversion X; subst.
      apply wrapped_step.
    + rewrite Ht, place_food_eq.
      apply (neck_inv_commit g); try reflexivity; [exact Hn|].
      simpl. intros _ _ _ h' n' t' X. rewrite E in X.
      inversion X; subst. apply wrapped_step.
  - simpl in He. destruct (reverses_dec d g) as [Hr|Hr].
    + rewrite change_direction_rejects by exact Hr. exact Hn.
    + rewrite change_direction_records by exact Hr.
      destruct Hn as (Hd & _ & _ & Hneck). unfold neck_inv. simpl.
      split; [exact Hd|]. split; [exact He|]. split; [exact Hr|exact Hneck].
  - revert Hn. apply neck_inv_frame; reflexivity.
  - unfold on_restart, bind, gets, ret. destruct (game_over g); [|exact Hn].
    apply neck_inv_reset.
Qed.

Lemma key_reachable_neck_inv (g : SnakeGame) : key_reachable g -> neck_inv g.
Proof.
  apply key_reachable_invariant.
  - intros r w h cs g0 Hi. apply init_shape in Hi. destruct Hi as [-> _].
    apply neck_inv_reset.
  - apply neck_inv_handle.
Qed.

Lemma small_multiple (c z s : Z) :
  3 <= c -> -2 <= s <= 2 -> s = z * c -> s = 0.
Proof.
  intros Hc Hs E.
  assert (z = 0 \/ 1 <= z \/ z <= -1) as [Z0|[Z1|Z1]] by lia.
  - subst z. lia.
  - assert (c <= z * c) by nia. lia.
  - assert (z * c <= - c) by nia. lia.
Qed.

(** X6.  The guard against reversing does its job: in any run in which
    [change_direction] is called as the key bindings call it, a live game on
    a grid with at least 3 columns and 3 rows never moves its head onto the
    second cell of its body. *)
Theorem tick_never_hits_neck (g : SnakeGame) (h n : Cell) (t : list Cell) :
  key_reachable g ->
  3 <= cols g -> 3 <= rows g ->
  game_over g = false ->
  snake g = h :: n :: t ->
  target g h <> n.
Proof.
  intros Hk Hc Hr H E Heq.
  destruct (key_reachable_neck_inv g Hk) as (Hd & Hn & Hrev & Hneck).
  destruct (Hneck H ltac:(lia) ltac:(lia) h n t E) as (kx & ky & Hx & Hy).
  destruct (wrapped_step g h) as (qx & qy & Tx & Ty).
  rewrite Heq in Tx, Ty. apply Hrev. unfold reverses.
  assert (Zx : fst (next_direction g) + fst (direction g)
               = (- qx - kx) * cols g) by lia.
  assert (Zy : snd (next_direction g) + snd (direction g)
               = (- qy - ky) * rows g) by lia.
  clear Hx Hy Tx Ty Hneck Hrev Heq.
  assert (Bx : -2 <= fst (next_direction g) + fst (direction g) <= 2).
  { destruct Hd as [Ed|[Ed|[Ed|Ed]]], Hn as [En|[En|[En|En]]];
      rewrite Ed, En; simpl; lia. }
  assert (By : -2 <= snd (next_direction g) + snd (direction g) <= 2).
  { destruct Hd as [Ed|[Ed|[Ed|Ed]]], Hn as [En|[En|[En|En]]];
      rewrite Ed, En; simpl; lia. }
  pose proof (small_multiple _ _ _ Hc Bx Zx).
  pose proof (small_multiple _ _ _ Hr By Zy). lia.
Qed.

Lemma tick_never_hits_neck_witness :
  key_reachable game_30x20_up /\
  snake game_30x20_up = [(15, 10); (14, 10); (13, 10)] /\
  target game_30x20_up (15, 10) <> (14, 10).
Proof.
  assert (R : key_reachable game_30x20_up).
  { exists 0%nat, 600, 400, 20, game_30x20, [ChangeDirection (0, -1)].
    split; [reflexivity|]. split; [|reflexivity].
    constructor; [|constructor]. left. reflexivity. }
  split; [exact R|]. split; [reflexivity|].
  apply (tick_never_hits_neck game_30x20_up (15, 10) (14, 10) [(13, 10)] R);
    simpl; try reflexivity; lia.
Defined.

(** X7.  Several key presses between two ticks: a call that the guard
    rejects leaves the earlier request in place, and an accepted call
    overrides it, so the last accepted request is the one that counts. *)
Theorem change_direction_twice (d1 d2 : Cell) (g : SnakeGame) :
  (reverses d2 g ->
   change_direction d2 (after (change_direction d1 g)) =
   Returned tt (after (change_direction d1 g))) /\
  (~ reverses d2 g ->
   change_direction d2 (after (change_direction d1 g)) =
   change_direction d2 g) /\
  (exists g1, change_direction d1 g = Returned tt g1 /\
              direction g1 = direction g).
Proof.
  assert (H1 : exists g1, change_direction d1 g = Returned tt g1 /\
                          direction g1 = direction g /\
                          set_next_direction d2 g1 = set_next_direction d2 g).
  { destruct (reverses_dec d1 g) as [Hr|Hr].
    - exists g. rewrite change_direction_rejects by exact Hr. auto.
    - exists (set_next_direction d1 g).
      rewrite change_direction_records by exact Hr. auto. }
  destruct H1 as (g1 & E1 & Hd & Hs). rewrite E1. simpl after.
  split; [|split].
  - intros Hr. apply change_direction_rejects.
    unfold reverses in *. rewrite Hd. exact Hr.
  - intros Hr. rewrite (change_direction_records d2 g Hr).
    rewrite <- Hs. apply change_direction_records.
    unfold reverses in *. rewrite Hd. exact Hr.
  - exists g1. auto.
Qed.

(** ** Restart *)

Lemma reset_grid_only (r : nat) (g g' : SnakeGame) :
  cols g = cols g' -> rows g = rows g' -> reset r g = reset r g'.
Proof.
  intros Hc Hr. rewrite !reset_food. cbv zeta. rewrite !place_food_eq.
  unfold empty_cells. simpl. rewrite Hc, Hr. reflexivity.
Qed.

Lemma run_grid (evs : list event) (g : SnakeGame) :
  inv g -> cols (run evs g) = cols g /\ rows (run evs g) = rows g.
Proof.
  revert g. induction evs as [|e evs IH]; intros g Hi; simpl; [auto|].
  destruct (IH _ (inv_handle e g Hi)) as [-> ->]. apply handle_grid, Hi.
Qed.

(** X8.  Restart after a game over gives back exactly the game that the
    constructor built, whatever happened in between, when [random.choice]
    draws the same index: [reset] reads nothing of the old game but the grid
    dimensions.  On a live game [on_restart] does nothing. *)
Theorem restart_restores_initial
  (r : nat) (width height cell_size : Z) (g0 : SnakeGame)
  (evs : list event) :
  __init__ r width height cell_size = inr g0 ->
  (game_over (run evs g0) = true ->
   on_restart r (run evs g0) = Returned tt g0) /\
  (game_over (run evs g0) = false ->
   forall r', on_restart r' (run evs g0) = Returned tt (run evs g0)).
Proof.
  intros Hi. split.
  - intros Hover. unfold on_restart, bind, gets. rewrite Hover.
    destruct (run_grid evs g0 (inv_init _ _ _ _ _ Hi)) as [Hc Hr].
    rewrite (reset_grid_only r (run evs g0) g0 Hc Hr).
    destruct (init_shape _ _ _ _ _ Hi) as [Hg _].
    destruct (reset_eq r g0) as [fd Hfd]. rewrite Hfd in Hg |- *.
    simpl in Hg. rewrite <- Hg. reflexivity.
  - intros Halive r'. unfold on_restart, bind, gets, ret.
    rewrite Halive. reflexivity.
Qed.

Lemma restart_restores_initial_witness :
  __init__ 0 80 20 20 = inr game_4x1 /\
  run [Tick 0; Tick 0] game_4x1 = game_4x1_dead /\
  on_restart 0 game_4x1_dead = Returned tt game_4x1.
Proof.
  split; [reflexivity|]. split; [reflexivity|].
  apply (restart_restores_initial 0 80 20 20 game_4x1 [Tick 0; Tick 0]
           eq_refl).
  reflexivity.
Defined.

(** ** The interval as a function of the score *)

Lemma speed_of_score_succ (n : Z) :
  0 <= n -> speed_of_score (n + 1) = speed_step (speed_of_score n).
Proof.
  intros H. unfold speed_of_score.
  replace (Z.to_nat (n + 1)) with (S (Z.to_nat n)) by lia. reflexivity.
Qed.

Lemma speed_of_score_handle (e : event) (g : SnakeGame) :
  inv g -> speed g = speed_of_score (score g) ->
  speed (after (handle e g)) = speed_of_score (score (after (handle e g))).
Proof.
  intros Hi Hs. destruct e as [r|d|r|r]; simpl handle.
  - destruct (tick_paths r g Hi)
      as [[_ ->]|[(_ & _ & ->)|(h & t & _ & _ & _ & _ &
                                [[_ ->]|[(_ & _ & ->)|(_ & _ & ->)]])]];
      try exact Hs.
    rewrite place_food_eq. simpl.
    destruct Hi as (_ & _ & Hsc & _).
    rewrite speed_of_score_succ by exact Hsc. rewrite <- Hs. reflexivity.
  - unfold change_direction, bind, gets, modify, ret.
    destruct (_ && _); exact Hs.
  - exact Hs.
  - unfold on_restart, bind, gets, ret. destruct (game_over g); [|exact Hs].
    destruct (reset_eq r g) as [fd ->]. reflexivity.
Qed.

Lemma speed_of_score_floor (n : nat) :
  Nat.iter (24 + n) speed_step 120 = 30.
Proof.
  induction n as [|n IH].
  - vm_compute. reflexivity.
  - replace (24 + S n)%nat with (S (24 + n)) by lia.
    rewrite Nat.iter_succ, IH. vm_compute. reflexivity.
Qed.

(** X9.  In every state of a run the interval is determined by the score:
    it is what [score] speed-ups make of the initial 120.  From a score of
    24 on it is 30. *)
Theorem reachable_speed_of_score (g : SnakeGame) :
  reachable g ->
  speed g = speed_of_score (score g) /\
  (24 <= score g -> speed g = 30).
Proof.
  intros Hr.
  assert (Hs : speed g = speed_of_score (score g)).
  { revert g Hr. apply reachable_invariant.
    - intros r w h cs g0 Hi.
      destruct (init_shape _ _ _ _ _ Hi) as (_ & _ & _ & _ & _ & -> & ->).
      reflexivity.
    - apply speed_of_score_handle. }
  split; [exact Hs|]. intros H24. rewrite Hs. unfold speed_of_score.
  replace (Z.to_nat (score g)) with (24 + (Z.to_nat (score g) - 24))%nat
    by lia.
  apply speed_of_score_floor.
Qed.

Lemma reachable_speed_of_score_witness :
  reachable game_4x1_fed /\ score game_4x1_fed = 1 /\
  speed game_4x1_fed = speed_of_score 1 /\ speed_of_score 1 = 114.
Proof.
  assert (R : reachable game_4x1_fed).
  { exists 0%nat, 80, 20, 20, game_4x1, [Tick 0]. split; reflexivity. }
  split; [exact R|]. split; [reflexivity|].
  split; [apply (reachable_speed_of_score game_4x1_fed R) | reflexivity].
Defined.

(** ** The score is bounded by the grid *)

Lemma In_grid_cells (g : SnakeGame) (c : Cell) :
  In c (grid_cells g) <-> in_grid g c.
Proof.
  unfold grid_cells, in_grid. rewrite in_flat_map. split.
  - intros [x [Hx H]]. apply in_map_iff in H. destruct H as [y [<- Hy]].
    apply In_range in Hx, Hy. simpl. auto.
  - destruct c as [x y]. simpl. intros [Hx Hy]. exists x.
    split; [apply In_range; exact Hx|]. apply in_map_iff. exists y.
    split; [reflexivity | apply In_range; exact Hy].
Qed.

Lemma length_grid_cells (g : SnakeGame) :
  0 <= cols g -> 0 <= rows g ->
  Z.of_nat (length (grid_cells g)) = cols g * rows g.
Proof.
  intros Hc Hr. unfold grid_cells, range.
  assert (H : forall l : list nat,
             length (flat_map
                       (fun x => map (fun y => (x, y))
                                     (map Z.of_nat (seq 0 (Z.to_nat (rows g)))))
                       (map Z.of_nat l))
             = (length l * Z.to_nat (rows g))%nat).
  { induction l as [|a l IH]; [reflexivity|].
    simpl. rewrite length_app, IH, !length_map, length_seq. reflexivity. }
  rewrite H, length_seq. nia.
Qed.

(** X10.  On a grid with at least 4 columns and 1 row, in every state of a
    run the body has at most as many cells as the grid, so the score is
    never more than [cols * rows - 3]. *)
Theorem reachable_score_bound (g : SnakeGame) :
  reachable g -> 4 <= cols g -> 1 <= rows g ->
  Z.of_nat (length (snake g)) <= cols g * rows g /\
  0 <= score g <= cols g * rows g - 3.
Proof.
  intros Hr Hc Hrw.
  pose proof (reachable_inv g Hr) as (Hnd & Hlen & Hsc & _).
  pose proof (reachable_grid g Hr Hc Hrw) as Hg.
  assert (Hle : (length (snake g) <= length (grid_cells g))%nat).
  { apply NoDup_incl_length; [exact Hnd|]. intros c Hin.
    apply In_grid_cells. rewrite Forall_forall in Hg. apply Hg, Hin. }
  pose proof (length_grid_cells g ltac:(lia) ltac:(lia)). lia.
Qed.

Lemma reachable_score_bound_witness :
  reachable game_4x1_fed /\ 4 <= cols game_4x1_fed /\
  1 <= rows game_4x1_fed /\
  0 <= score game_4x1_fed <= cols game_4x1_fed * rows game_4x1_fed - 3.
Proof.
  assert (R : reachable game_4x1_fed).
  { exists 0%nat, 80, 20, 20, game_4x1, [Tick 0]. split; reflexivity. }
  split; [exact R|]. split; [simpl; lia|]. split; [simpl; lia|].
  apply (reachable_score_bound game_4x1_fed R); simpl; lia.
Defined.

(** * The window *)

(** ** What [redraw] and [on_game_over] put on the canvas *)

Lemma init_window_30x20 : Gui.__init__ 0 600 400 20 = inr Gui.window_30x20.
Proof. vm_compute. reflexivity. Qed.

Lemma draw_cell_eq (x y : Z) (fill : string) (w : Gui.Window) :
  Gui._draw_cell x y fill w =
  Gui.Done tt
    (Gui.set_canvas
       (Gui.canvas w ++ [Gui.cell_rectangle (Gui.cell_size w) (x, y) fill]) w).
Proof. reflexivity. Qed.

Lemma draw_snake_tail (body : list Cell) (i : nat) (w : Gui.Window) :
  Gui.draw_snake (S i) body w =
  Gui.Done tt
    (Gui.set_canvas
       (Gui.canvas w ++
        map (fun c => Gui.cell_rectangle (Gui.cell_size w) c "#27ae60") body)
       w).
Proof.
  revert i w. induction body as [|[x y] rest IH]; intros i w.
  - simpl. rewrite app_nil_r. destruct w; reflexivity.
  - simpl Gui.draw_snake. unfold Gui.and_then. rewrite draw_cell_eq.
    rewrite IH. simpl. rewrite <- app_assoc. reflexivity.
Qed.

(** The rectangles of the body: the first cell in the head colour. *)
Lemma draw_snake_eq (body : list Cell) (w : Gui.Window) :
  Gui.draw_snake 0 body w =
  Gui.Done tt
    (Gui.set_canvas
       (Gui.canvas w ++
        match body with
        | [] => []
        | h :: rest =>
            Gui.cell_rectangle (Gui.cell_size w) h "#2ecc71"
            :: map (fun c => Gui.cell_rectangle (Gui.cell_size w) c "#27ae60")
                   rest
        end) w).
Proof.
  destruct body as [|[x y] rest].
  - simpl. rewrite app_nil_r. destruct w; reflexivity.
  - simpl Gui.draw_snake. unfold Gui.and_then. rewrite draw_cell_eq.
    rewrite draw_snake_tail. simpl. rewrite <- app_assoc. reflexivity.
Qed.

Lemma redraw_eq (w : Gui.Window) :
  Gui.redraw w =
  Gui.Done tt
    (Gui.set_canvas
       (match food (Gui.game w) with
        | Some c => [Gui.cell_rectangle (Gui.cell_size w) c "#e74c3c"]
        | None => []
        end ++
        match snake (Gui.game w) with
        | [] => []
        | h :: rest =>
            Gui.cell_rectangle (Gui.cell_size w) h "#2ecc71"
            :: map (fun c => Gui.cell_rectangle (Gui.cell_size w) c "#27ae60")
                   rest
        end) w).
Proof.
  destruct w as [wd ht cs g cv ts bs].
  unfold Gui.redraw, Gui.and_then, Gui.delete_all, Gui.update, Gui.lift, gets.
  simpl. destruct (food g) as [[x y]|].
  - rewrite draw_cell_eq. simpl. rewrite draw_snake_eq. reflexivity.
  - unfold Gui.pure. rewrite draw_snake_eq. reflexivity.
Qed.

Lemma frame_eq (w : Gui.Window) :
  Gui.frame w =
  match food (Gui.game w) with
  | Some c => [Gui.cell_rectangle (Gui.cell_size w) c "#e74c3c"]
  | None => []
  end ++
  match snake (Gui.game w) with
  | [] => []
  | h :: rest =>
      Gui.cell_rectangle (Gui.cell_size w) h "#2ecc71"
      :: map (fun c => Gui.cell_rectangle (Gui.cell_size w) c "#27ae60") rest
  end.
Proof. unfold Gui.frame. rewrite redraw_eq. reflexivity. Qed.

Lemma redraw_frame (w : Gui.Window) :
  Gui.redraw w = Gui.Done tt (Gui.set_canvas (Gui.frame w) w).
Proof. rewrite frame_eq. apply redraw_eq. Qed.

Lemma frame_ext (w w' : Gui.Window) :
  Gui.cell_size w' = Gui.cell_size w ->
  food (Gui.game w') = food (Gui.game w) ->
  snake (Gui.game w') = snake (Gui.game w) ->
  Gui.frame w' = Gui.frame w.
Proof. intros Hc Hf Hs. rewrite !frame_eq, Hc, Hf, Hs. reflexivity. Qed.

Lemma banner_eq (w : Gui.Window) :
  Gui.banner w =
  [Gui.Text (Gui.width w / 2) (Gui.height w / 2 - 20) "GAME OVER" "#fff"
            ("Helvetica"%string, 24, Some "bold"%string);
   Gui.Text (Gui.width w / 2) (Gui.height w / 2 + 14)
            (String.append "Score: " (Gui.str (score (Gui.game w)))) "#ddd"
            ("Helvetica"%string, 14, None);
   Gui.Text (Gui.width w / 2) (Gui.height w / 2 + 44) "Press R to restart"
            "#aaa" ("Helvetica"%string, 10, None)].
Proof. reflexivity. Qed.

Lemma banner_ext (w w' : Gui.Window) :
  Gui.width w' = Gui.width w -> Gui.height w' = Gui.height w ->
  score (Gui.game w') = score (Gui.game w) ->
  Gui.banner w' = Gui.banner w.
Proof. intros H1 H2 H3. rewrite !banner_eq, H1, H2, H3. reflexivity. Qed.

Lemma on_game_over_eq (w : Gui.Window) :
  Gui.on_game_over w =
  Gui.Done tt
    (Gui.set_canvas (Gui.canvas w ++ Gui.banner w)
       (Gui.set_game (set_game_over true (Gui.game w)) w)).
Proof.
  rewrite banner_eq. destruct w as [wd ht cs g cv ts bs].
  unfold Gui.on_game_over, Gui.and_then, Gui.lift, Gui.read, Gui.create_text,
    Gui.update, on_game_over, modify, gets. simpl.
  rewrite <- !app_assoc. reflexivity.
Qed.

(** ** [tick] of the window against [tick] of the core *)

Lemma gui_tick_sim (r : nat) (w : Gui.Window) :
  Gui.tick r w =
  if game_over (Gui.game w) then Gui.Done tt w
  else
    match tick r (Gui.game w) with
    | Raised e g' => Gui.Failed e (Gui.set_game g' w)
    | Returned _ g' =>
        if game_over g' then
          Gui.Done tt
            (Gui.set_canvas
               (Gui.canvas w ++ Gui.banner (Gui.set_game g' w))
               (Gui.set_game g' w))
        else
          Gui.Done tt
            (Gui.set_timers (Gui.timers w ++ [speed g'])
               (Gui.set_canvas (Gui.frame (Gui.set_game g' w))
                  (Gui.set_game g' w)))
    end.
Proof.
  destruct w as [wd ht cs g cv ts bs]. simpl Gui.game.
  unfold Gui.tick, tick, Gui.and_then, bind, Gui.lift, gets, modify,
    Gui.pure, ret, Gui.set_game.
  cbn. destruct (game_over g) eqn:H; [reflexivity|]. cbn.
  destruct (snake g) as [|h t] eqn:E; cbn; [reflexivity|].
  unfold new_head, py_mod, bind, raise, ret. cbn.
  destruct h as [hx hy]. destruct (next_direction g) as [dx dy].
  destruct (cols g =? 0); cbn; [reflexivity|].
  destruct (rows g =? 0); cbn; [reflexivity|].
  destruct (cell_in _ _) eqn:Hin.
  - rewrite on_game_over_eq. unfold on_game_over, modify. cbn. reflexivity.
  - cbn. unfold place_food, list_pop, bind, gets, modify.
    destruct (food g) as [f|] eqn:Ef.
    + destruct (cell_eqb _ f) eqn:Eq; cbn.
      * match goal with
        | |- context [int_speed_times_0_95 ?sp ?s] =>
            destruct (int_speed_times_0_95_state sp s) as [[v Hv]|[e Hv]];
            rewrite Hv
        end; cbn; [|reflexivity].
        rewrite H, redraw_frame. reflexivity.
      * rewrite H, redraw_frame. reflexivity.
    + cbn. rewrite H, redraw_frame. reflexivity.
Qed.

Lemma set_game_same (w : Gui.Window) : Gui.set_game (Gui.game w) w = w.
Proof. destruct w; reflexivity. Qed.

Lemma gui_reset_eq (r : nat) (w : Gui.Window) :
  Gui.reset r w =
  Gui.Done tt
    (Gui.set_timers (Gui.timers w ++ [120])
       (Gui.set_canvas
          (Gui.frame (Gui.set_game (after (reset r (Gui.game w))) w))
          (Gui.set_game (after (reset r (Gui.game w))) w))).
Proof.
  unfold Gui.reset, Gui.and_then, Gui.lift.
  destruct (reset_eq r (Gui.game w)) as [fd ->]. cbn.
  rewrite redraw_frame. reflexivity.
Qed.

Lemma gui_on_restart_eq (r : nat) (w : Gui.Window) :
  Gui.on_restart r w =
  if game_over (Gui.game w) then Gui.reset r w else Gui.Done tt w.
Proof.
  unfold Gui.on_restart, Gui.and_then, Gui.lift, gets, Gui.pure.
  rewrite set_game_same. destruct (game_over (Gui.game w)); reflexivity.
Qed.

Lemma lookup_bind_keys (seq : string) (cb : Gui.callback) :
  Gui.lookup seq Gui.key_bindings = Some cb ->
  cb = Gui.CallOnRestart \/
  exists d, cb = Gui.CallChangeDirection d /\ key_direction d.
Proof.
  unfold Gui.lookup, key_direction.
  unfold Gui.key_bindings.
  cbn [find fst snd].
  repeat (match goal with
          | |- context [String.eqb ?a seq] => destruct (String.eqb a seq)
          end;
          [intros X; inversion X; subst; eauto 10|]).
  discriminate.
Qed.

(** What one input does to the window. *)
Lemma dispatch_cases (i : Gui.input) (w : Gui.Window) :
  Gui.bindings w = Gui.key_bindings ->
  Gui.final (Gui.dispatch i w) = w \/
  (exists d, key_direction d /\
             Gui.final (Gui.dispatch i w) =
             Gui.set_game (after (change_direction d (Gui.game w))) w) \/
  (exists r, game_over (Gui.game w) = true /\
             Gui.final (Gui.dispatch i w) = Gui.final (Gui.reset r w)) \/
  (exists n r x,
      nth_error (Gui.timers w) n = Some x /\
      Gui.final (Gui.dispatch i w) =
      Gui.final
        (Gui.tick r
           (Gui.set_timers
              (firstn n (Gui.timers w) ++ skipn (S n) (Gui.timers w)) w))).
Proof.
  intros Hb. destruct i as [seq r|n r]; unfold Gui.dispatch, Gui.and_then,
    Gui.read.
  - rewrite Hb. destruct (Gui.lookup seq _) as [cb|] eqn:L; [|left; reflexivity].
    destruct (lookup_bind_keys seq cb L) as [->|(d & -> & Hd)].
    + simpl Gui.call. rewrite gui_on_restart_eq.
      destruct (game_over (Gui.game w)) eqn:H; [|left; reflexivity].
      right. right. left. exists r. auto.
    + right. left. exists d. split; [exact Hd|].
      simpl Gui.call. unfold Gui.lift.
      destruct (change_direction d (Gui.game w)); reflexivity.
  - destruct (nth_error (Gui.timers w) n) as [x|] eqn:E; [|left; reflexivity].
    right. right. right. exists n, r, x. split; [exact E|]. reflexivity.
Qed.

(** ** The invariant of the window *)

Lemma window_inv_intro (w w' : Gui.Window) :
  window_inv w ->
  Gui.bindings w' = Gui.bindings w ->
  Gui.width w' = Gui.width w -> Gui.height w' = Gui.height w ->
  Gui.cell_size w' = Gui.cell_size w ->
  cols (Gui.game w') = cols (Gui.game w) ->
  rows (Gui.game w') = rows (Gui.game w) ->
  inv (Gui.game w') ->
  Gui.canvas w' =
    Gui.frame w' ++ (if game_over (Gui.game w') then Gui.banner w' else []) ->
  (cols (Gui.game w) <> 0 -> rows (Gui.game w) <> 0 ->
   Gui.timers w' =
     if game_over (Gui.game w') then [] else [speed (Gui.game w')]) ->
  window_inv w'.
Proof.
  intros (Hb & Hcs & Hc & Hr & _ & _ & _) Eb Ew Eh Ec Ecol Erow Hi Hcv Ht.
  unfold window_inv. rewrite Eb, Ew, Eh, Ec, Ecol, Erow.
  repeat (split; [assumption|]). exact Ht.
Qed.

Ltac window_step w Hw :=
  apply (window_inv_intro w);
  [exact Hw | reflexivity | reflexivity | reflexivity | reflexivity
   | reflexivity | reflexivity | | | ].

Lemma timers_fire_one (ts : list Z) (s x : Z) (n : nat) :
  ts = [s] -> nth_error ts n = Some x ->
  firstn n ts ++ skipn (S n) ts = [].
Proof.
  intros -> H. destruct n as [|n]; [reflexivity|].
  destruct n; discriminate H.
Qed.

Lemma window_inv_reset (r : nat) (w : Gui.Window) :
  window_inv w -> game_over (Gui.game w) = true ->
  window_inv (Gui.final (Gui.reset r w)).
Proof.
  intros Hw Hover. rewrite gui_reset_eq.
  pose proof (inv_reset r (Gui.game w)) as Hi.
  destruct (reset_eq r (Gui.game w)) as [fd Hfd]. rewrite Hfd in Hi |- *.
  simpl after in *. cbn [Gui.final].
  window_step w Hw.
  - exact Hi.
  - cbn. rewrite app_nil_r. apply frame_ext; reflexivity.
  - intros Hc Hr. destruct Hw as (_ & _ & _ & _ & _ & _ & Ht).
    cbn. rewrite (Ht Hc Hr), Hover. reflexivity.
Qed.

Lemma window_inv_tick (r n : nat) (x : Z) (w : Gui.Window) :
  window_inv w ->
  nth_error (Gui.timers w) n = Some x ->
  window_inv
    (Gui.final
       (Gui.tick r
          (Gui.set_timers
             (firstn n (Gui.timers w) ++ skipn (S n) (Gui.timers w)) w))).
Proof.
  intros Hw Hn. rewrite gui_tick_sim. cbn [Gui.game Gui.set_timers].
  pose proof Hw as (_ & _ & _ & _ & Hi & Hcv & Ht).
  pose proof (inv_tick r (Gui.game w) Hi) as Hi'.
  assert (Hts : game_over (Gui.game w) = false ->
                cols (Gui.game w) <> 0 -> rows (Gui.game w) <> 0 ->
                firstn n (Gui.timers w) ++ skipn (S n) (Gui.timers w) = []).
  { intros H Hc Hr. apply (timers_fire_one _ (speed (Gui.game w)) x).
    - rewrite (Ht Hc Hr), H. reflexivity.
    - exact Hn. }
  destruct (tick_paths r (Gui.game w) Hi)
    as [[H _]|[(H & Hz & Hk)|(h & t & H & E & Hc & Hr &
                              [[_ Hk]|[(_ & _ & Hk)|(_ & _ & Hk)]])]];
    rewrite H.
  - (* the game is over: on a proper grid no timer is pending *)
    cbn [Gui.final]. window_step w Hw.
    + exact Hi.
    + rewrite (frame_ext w), (banner_ext w) by reflexivity. exact Hcv.
    + intros Hc Hr. rewrite (Ht Hc Hr), H in Hn. destruct n; discriminate Hn.
  - rewrite Hk in Hi' |- *. cbn [Gui.final after] in *.
    window_step w Hw.
    + exact Hi'.
    + cbn. rewrite Hcv, H. f_equal. apply frame_ext; reflexivity.
    + intros Hc Hr. lia.
  - rewrite Hk in Hi' |- *. rewrite (Hts H Hc Hr).
    cbn [after game_over set_game_over Gui.final] in *.
    window_step w Hw.
    + exact Hi'.
    + cbn. rewrite Hcv, H, app_nil_r.
      f_equal; (apply frame_ext || apply banner_ext); reflexivity.
    + intros _ _. reflexivity.
  - rewrite Hk in Hi' |- *. rewrite (Hts H Hc Hr).
    cbn [after game_over set_snake set_direction] in *.
    rewrite H. cbn [Gui.final].
    window_step w Hw.
    + exact Hi'.
    + cbn. rewrite H, app_nil_r. apply frame_ext; reflexivity.
    + intros _ _. cbn. rewrite H. reflexivity.
  - rewrite Hk, place_food_eq in Hi' |- *. rewrite (Hts H Hc Hr).
    cbn [after game_over set_food set_speed set_score set_snake
         set_direction] in *.
    rewrite H. cbn [Gui.final].
    window_step w Hw.
    + exact Hi'.
    + cbn. rewrite H, app_nil_r. apply frame_ext; reflexivity.
    + intros _ _. cbn. rewrite H. reflexivity.
Qed.

Lemma window_inv_dispatch (i : Gui.input) (w : Gui.Window) :
  window_inv w -> window_inv (Gui.final (Gui.dispatch i w)).
Proof.
  intros Hw. pose proof Hw as (Hb & _ & _ & _ & Hi & Hcv & Ht).
  destruct (dispatch_cases i w Hb)
    as [->|[(d & Hd & ->)|[(r & Hover & ->)|(n & r & x & Hn & ->)]]].
  - exact Hw.
  - pose proof (inv_change_direction d (Gui.game w) Hi) as Hi'.
    destruct (reverses_dec d (Gui.game w)) as [Hr|Hr].
    + rewrite change_direction_rejects by exact Hr. simpl after.
      rewrite set_game_same. exact Hw.
    + rewrite change_direction_records in Hi' |- * by exact Hr.
      simpl after in *.
      window_step w Hw.
      * exact Hi'.
      * cbn [Gui.canvas Gui.game Gui.set_game game_over set_next_direction].
        rewrite (frame_ext w), (banner_ext w) by reflexivity. exact Hcv.
      * exact Ht.
  - apply window_inv_reset; assumption.
  - apply window_inv_tick with (x := x); assumption.
Qed.

Lemma inr_eq {A B} (a b : B) : @inr A B a = inr b -> a = b.
Proof. intros H. injection H. auto. Qed.

Lemma bind_keys_eq (w : Gui.Window) :
  Gui.bindings w = [] ->
  Gui.bind_keys w =
  Gui.Done tt (Gui.set_bindings Gui.key_bindings w).
Proof.
  destruct w as [wd ht cs g cv ts bs]. cbn [Gui.bindings]. intros ->.
  reflexivity.
Qed.

Lemma core_init_eq (r : nat) (width height cell_size : Z) :
  cell_size <> 0 ->
  __init__ r width height cell_size =
  inr (after (reset r (mkGame (width / cell_size) (height / cell_size)
                              [] (0, 0) (0, 0) None false 0 0))).
Proof.
  intros H. apply Z.eqb_neq in H. unfold __init__. rewrite H.
  match goal with
  | |- context [reset r ?b] => destruct (reset_eq r b) as [fd ->]
  end.
  reflexivity.
Qed.

Lemma gui_init_eq (r : nat) (width height cell_size : Z) :
  cell_size <> 0 ->
  Gui.__init__ r width height cell_size =
  inr (Gui.set_bindings Gui.key_bindings
         (Gui.final
            (Gui.reset r
               (Gui.mkWindow width height cell_size
                  (mkGame (width / cell_size) (height / cell_size)
                          [] (0, 0) (0, 0) None false 0 0)
                  [] [] [])))).
Proof.
  intros H. apply Z.eqb_neq in H. unfold Gui.__init__, Gui.and_then.
  rewrite H. rewrite gui_reset_eq. cbn [Gui.final].
  rewrite bind_keys_eq; reflexivity.
Qed.

Lemma gui_init_inr (r : nat) (width height cell_size : Z) (w0 : Gui.Window) :
  Gui.__init__ r width height cell_size = inr w0 ->
  cell_size <> 0 /\
  __init__ r width height cell_size = inr (Gui.game w0) /\
  Gui.width w0 = width /\ Gui.height w0 = height /\
  Gui.cell_size w0 = cell_size /\
  Gui.canvas w0 = Gui.frame w0 /\ Gui.timers w0 = [120] /\
  Gui.bindings w0 = Gui.key_bindings.
Proof.
  intros Hi.
  assert (Hcs : cell_size <> 0).
  { intros ->. discriminate Hi. }
  split; [exact Hcs|].
  rewrite (gui_init_eq r width height cell_size Hcs) in Hi.
  rewrite gui_reset_eq in Hi. cbn [Gui.final Gui.game] in Hi.
  apply inr_eq in Hi. subst w0.
  rewrite (core_init_eq r width height cell_size Hcs).
  cbn [Gui.game Gui.set_bindings Gui.set_timers Gui.set_canvas Gui.set_game
       Gui.width Gui.height Gui.cell_size Gui.canvas Gui.timers Gui.bindings].
  repeat (split; [reflexivity|]). split; [|split; reflexivity].
  apply frame_ext; reflexivity.
Qed.

Lemma window_inv_init (r : nat) (width height cell_size : Z) (w0 : Gui.Window) :
  Gui.__init__ r width height cell_size = inr w0 -> window_inv w0.
Proof.
  intros Hi.
  destruct (gui_init_inr _ _ _ _ _ Hi)
    as (Hcs & Hg & Ewd & Eht & Ecs & Ecv & Ets & Eb).
  pose proof (inv_init _ _ _ _ _ Hg) as Hinv.
  destruct (init_shape _ _ _ _ _ Hg) as (_ & _ & _ & _ & Hover & Hsp & _).
  assert (Hgrid : cols (Gui.game w0) = width / cell_size /\
                  rows (Gui.game w0) = height / cell_size).
  { destruct (init_eq r width height cell_size Hcs) as [fd Hfd].
    rewrite Hfd in Hg. injection Hg as Hg'. rewrite <- Hg'. auto. }
  unfold window_inv.
  rewrite Hover, Hsp, app_nil_r, Ewd, Eht, Ecs, Ets.
  split; [exact Eb|]. split; [exact Hcs|].
  split; [apply Hgrid|]. split; [apply Hgrid|]. split; [exact Hinv|].
  split; [exact Ecv|]. intros _ _. reflexivity.
Qed.

Lemma window_inv_run (ins : list Gui.input) (w : Gui.Window) :
  window_inv w -> window_inv (Gui.run ins w).
Proof.
  revert w. induction ins as [|i ins IH]; intros w Hw; simpl; [exact Hw|].
  apply IH, window_inv_dispatch, Hw.
Qed.

Lemma gui_reachable_inv (w : Gui.Window) : Gui.reachable w -> window_inv w.
Proof.
  intros (r & wd & ht & cs & w0 & ins & Hi & ->).
  apply window_inv_run. eapply window_inv_init. exact Hi.
Qed.

(** ** The window only plays the core *)

Lemma gui_tick_game (r : nat) (w : Gui.Window) :
  Gui.game (Gui.final (Gui.tick r w)) = after (tick r (Gui.game w)) /\
  (forall e, (exists w', Gui.tick r w = Gui.Failed e w') <->
             (exists g', tick r (Gui.game w) = Raised e g')).
Proof.
  rewrite gui_tick_sim. destruct (game_over (Gui.game w)) eqn:H.
  - rewrite tick_dead by exact H. split; [reflexivity|].
    intros e. split; intros [x X]; discriminate X.
  - destruct (tick r (Gui.game w)) as [[] g'|e' g'].
    + destruct (game_over g'); (split; [reflexivity|]);
        intros e; split; intros [x X]; discriminate X.
    + split; [reflexivity|]. intros e. split; intros [x X];
        inversion X; subst; eexists; reflexivity.
Qed.

Lemma run_app (evs evs' : list event) (g : SnakeGame) :
  run (evs ++ evs') g = run evs' (run evs g).
Proof.
  revert g. induction evs as [|e evs IH]; intros g; simpl; [reflexivity|].
  apply IH.
Qed.

Lemma key_reachable_handle (e : event) (g : SnakeGame) :
  key_event e -> key_reachable g -> key_reachable (after (handle e g)).
Proof.
  intros He (r & w & h & cs & g0 & evs & Hi & Hk & ->).
  exists r, w, h, cs, g0, (evs ++ [e]). split; [exact Hi|]. split.
  - apply Forall_app. split; [exact Hk|]. constructor; [exact He|constructor].
  - rewrite run_app. reflexivity.
Qed.

Lemma dispatch_key_reachable (i : Gui.input) (w : Gui.Window) :
  window_inv w -> key_reachable (Gui.game w) ->
  key_reachable (Gui.game (Gui.final (Gui.dispatch i w))).
Proof.
  intros Hw Hk. pose proof Hw as (Hb & _).
  destruct (dispatch_cases i w Hb)
    as [->|[(d & Hd & ->)|[(r & Hover & ->)|(n & r & x & Hn & ->)]]].
  - exact Hk.
  - apply (key_reachable_handle (ChangeDirection d)); [exact Hd | exact Hk].
  - rewrite gui_reset_eq. cbn [Gui.final Gui.game Gui.set_timers Gui.set_canvas
      Gui.set_game].
    pose proof (key_reachable_handle (Restart r) (Gui.game w) I Hk) as X.
    simpl handle in X. unfold on_restart, bind, gets in X.
    rewrite Hover in X. exact X.
  - destruct (gui_tick_game r
                (Gui.set_timers
                   (firstn n (Gui.timers w) ++ skipn (S n) (Gui.timers w)) w))
      as [-> _].
    apply (key_reachable_handle (Tick r)); [exact I | exact Hk].
Qed.

Lemma gui_reachable_key (w : Gui.Window) :
  Gui.reachable w -> key_reachable (Gui.game w).
Proof.
  intros (r & wd & ht & cs & w0 & ins & Hi & ->).
  pose proof (window_inv_init _ _ _ _ _ Hi) as Hw.
  assert (Hk : key_reachable (Gui.game w0)).
  { destruct (gui_init_inr _ _ _ _ _ Hi) as (_ & Hg & _).
    exists r, wd, ht, cs, (Gui.game w0), []. split; [exact Hg|].
    split; [constructor | reflexivity]. }
  clear Hi. revert w0 Hw Hk.
  induction ins as [|i ins IH]; intros w0 Hw Hk; simpl; [exact Hk|].
  apply IH; [apply window_inv_dispatch | apply dispatch_key_reachable];
    assumption.
Qed.

Lemma reachable_window_30x20 : Gui.reachable Gui.window_30x20.
Proof.
  exists 0%nat, 600, 400, 20, Gui.window_30x20, [].
  split; [exact init_window_30x20 | reflexivity].
Qed.

(** X12.  Whatever keys are pressed and whenever the timer expires, the
    game in the window is a state of a run of the core in which
    [change_direction] has only been called with the four key
    directions. *)
Theorem gui_run_is_key_run (w : Gui.Window) :
  Gui.reachable w -> key_reachable (Gui.game w).
Proof. apply gui_reachable_key. Qed.

Lemma gui_run_is_key_run_witness :
  Gui.reachable Gui.window_30x20 /\ key_reachable (Gui.game Gui.window_30x20).
Proof.
  split; [exact reachable_window_30x20|].
  apply (gui_run_is_key_run Gui.window_30x20 reachable_window_30x20).
Defined.

(** X13.  On a grid with non-zero dimensions the program never runs two
    tick loops: in every state of the window exactly one [tick] is
    scheduled while the game is alive, with the current interval as its
    delay, and none once the game is over. *)
Theorem one_tick_pending (w : Gui.Window) :
  Gui.reachable w ->
  cols (Gui.game w) <> 0 -> rows (Gui.game w) <> 0 ->
  Gui.timers w = if game_over (Gui.game w) then [] else [speed (Gui.game w)].
Proof.
  intros Hr. destruct (gui_reachable_inv w Hr) as (_ & _ & _ & _ & _ & _ & Ht).
  exact Ht.
Qed.

Lemma one_tick_pending_witness :
  Gui.reachable Gui.window_30x20 /\
  Gui.timers Gui.window_30x20 = [120].
Proof.
  split; [exact reachable_window_30x20|].
  apply (one_tick_pending Gui.window_30x20 reachable_window_30x20);
    vm_compute; discriminate.
Defined.

(** X14.  The canvas always shows the current game: in every state of the
    window its items are exactly the ones that [redraw] would draw now,
    followed, once the game is over, by the three texts of [on_game_over]
    with the final score. *)
Theorem canvas_shows_game (w : Gui.Window) :
  Gui.reachable w ->
  Gui.canvas w =
  Gui.frame w ++ (if game_over (Gui.game w) then Gui.banner w else []).
Proof.
  intros Hr. destruct (gui_reachable_inv w Hr) as (_ & _ & _ & _ & _ & Hc & _).
  exact Hc.
Qed.

Lemma canvas_shows_game_witness :
  Gui.reachable Gui.window_30x20 /\
  Gui.canvas Gui.window_30x20 = Gui.frame Gui.window_30x20 ++ [].
Proof.
  split; [exact reachable_window_30x20|].
  apply (canvas_shows_game Gui.window_30x20 reachable_window_30x20).
Defined.

(** ** The drawing stays inside the window *)

Lemma cell_rectangle_inside (cs wd n x : Z) :
  2 <= cs -> n = wd / cs -> 0 <= x < n ->
  0 < x * cs + Z.max 1 (cs / 10) /\
  x * cs + Z.max 1 (cs / 10) <= x * cs + cs - Z.max 1 (cs / 10) /\
  x * cs + cs - Z.max 1 (cs / 10) < wd.
Proof.
  intros Hcs -> Hx.
  assert (Hp : 1 <= Z.max 1 (cs / 10)) by lia.
  assert (Hq : 2 * Z.max 1 (cs / 10) <= cs).
  { pose proof (Z.mul_div_le cs 10 ltac:(lia)).
    assert (0 <= cs / 10) by (apply Z.div_pos; lia). lia. }
  pose proof (Z.mul_div_le wd cs ltac:(lia)) as Hw.
  assert (Hx1 : (x + 1) * cs <= cs * (wd / cs)) by nia.
  split; [nia|]. split; [lia|]. lia.
Qed.

Lemma In_frame (w : Gui.Window) (it : Gui.item) :
  In it (Gui.frame w) ->
  exists c fill,
    it = Gui.cell_rectangle (Gui.cell_size w) c fill /\
    (food (Gui.game w) = Some c \/ In c (snake (Gui.game w))).
Proof.
  rewrite frame_eq. intros H. apply in_app_or in H. destruct H as [H|H].
  - destruct (food (Gui.game w)) as [c|]; [|destruct H].
    destruct H as [<-|[]]. eauto.
  - destruct (snake (Gui.game w)) as [|h rest]; [destruct H|].
    destruct H as [<-|H]; [exists h; eexists; split; [reflexivity|]; right;
                           left; reflexivity|].
    apply in_map_iff in H. destruct H as (c & <- & Hc).
    exists c. eexists. split; [reflexivity|]. right. right. exact Hc.
Qed.

(** X16.  With cells of at least 2 pixels on a grid of at least 4 columns
    and 1 row, every rectangle on the canvas, in every state of the window,
    lies strictly inside the window and is not turned inside out. *)
Theorem drawing_inside_window
  (w : Gui.Window) (x1 y1 x2 y2 : Z) (fill outline : string) :
  Gui.reachable w ->
  2 <= Gui.cell_size w ->
  4 <= cols (Gui.game w) -> 1 <= rows (Gui.game w) ->
  In (Gui.Rectangle x1 y1 x2 y2 fill outline) (Gui.canvas w) ->
  0 < x1 /\ x1 <= x2 /\ x2 < Gui.width w /\
  0 < y1 /\ y1 <= y2 /\ y2 < Gui.height w.
Proof.
  intros Hr Hcs Hc Hrw Hin.
  destruct (gui_reachable_inv w Hr) as (_ & _ & Ecol & Erow & _ & Hcv & _).
  pose proof (key_reachable_reachable _ (gui_reachable_key w Hr)) as Hcore.
  rewrite Hcv in Hin. apply in_app_or in Hin. destruct Hin as [Hin|Hin].
  - destruct (In_frame w _ Hin) as (c & fl & E & Hcell).
    assert (Hg : in_grid (Gui.game w) c).
    { destruct Hcell as [Hf|Hs].
      - destruct (reachable_food_inv _ Hcore) as [Hsome _].
        apply (Hsome c Hf).
      - pose proof (reachable_grid _ Hcore Hc Hrw) as Hall.
        rewrite Forall_forall in Hall. apply Hall, Hs. }
    destruct Hg as [Hx Hy]. unfold Gui.cell_rectangle in E.
    injection E as -> -> -> -> _ _.
    destruct (cell_rectangle_inside (Gui.cell_size w) (Gui.width w)
                (cols (Gui.game w)) (fst c) Hcs Ecol Hx) as (? & ? & ?).
    destruct (cell_rectangle_inside (Gui.cell_size w) (Gui.height w)
                (rows (Gui.game w)) (snd c) Hcs Erow Hy) as (? & ? & ?).
    repeat split; assumption.
  - destruct (game_over (Gui.game w)); [|destruct Hin].
    rewrite banner_eq in Hin.
    destruct Hin as [X|[X|[X|[]]]]; discriminate X.
Qed.

Lemma drawing_inside_window_witness :
  Gui.reachable Gui.window_30x20 /\
  In (Gui.Rectangle 302 202 318 218 "#2ecc71" "")
     (Gui.canvas Gui.window_30x20) /\
  0 < 302 /\ 302 <= 318 /\ 318 < 600 /\ 0 < 202 /\ 202 <= 218 /\ 218 < 400.
Proof.
  split; [exact reachable_window_30x20|].
  assert (Hin : In (Gui.Rectangle 302 202 318 218 "#2ecc71" "")
                   (Gui.canvas Gui.window_30x20)).
  { vm_compute. right. left. reflexivity. }
  split; [exact Hin|].
  apply (drawing_inside_window Gui.window_30x20 302 202 318 218
           "#2ecc71" "" reachable_window_30x20); try exact Hin;
    vm_compute; discriminate.
Defined.

(** ** A grid with a zero dimension *)

Lemma zero_grid_dispatch (i : Gui.input) (w : Gui.Window) :
  window_inv w ->
  game_over (Gui.game w) = false ->
  cols (Gui.game w) = 0 \/ rows (Gui.game w) = 0 ->
  Gui.timers w = [120] \/ Gui.timers w = [] ->
  let w' := Gui.final (Gui.dispatch i w) in
  game_over (Gui.game w') = false /\
  cols (Gui.game w') = cols (Gui.game w) /\
  rows (Gui.game w') = rows (Gui.game w) /\
  snake (Gui.game w') = snake (Gui.game w) /\
  score (Gui.game w') = score (Gui.game w) /\
  Gui.canvas w' = Gui.canvas w /\
  (Gui.timers w' = [120] \/ Gui.timers w' = []).
Proof.
  intros Hw Halive Hz Hts. pose proof Hw as (Hb & _ & _ & _ & Hi & _).
  cbv zeta.
  destruct (dispatch_cases i w Hb)
    as [->|[(d & Hd & ->)|[(r & Hover & ->)|(n & r & x & Hn & ->)]]].
  - auto 10.
  - destruct (reverses_dec d (Gui.game w)) as [Hr|Hr].
    + rewrite change_direction_rejects by exact Hr. simpl after.
      rewrite set_game_same. auto 10.
    + rewrite change_direction_records by exact Hr.
      cbn [after Gui.game Gui.set_game Gui.canvas Gui.timers game_over cols
           rows snake score set_next_direction].
      auto 10.
  - congruence.
  - rewrite gui_tick_sim. cbn [Gui.game Gui.set_timers]. rewrite Halive.
    destruct (tick_paths r (Gui.game w) Hi)
      as [[H _]|[(_ & _ & Hk)|(h & t & _ & _ & Hc & Hr & _)]].
    + congruence.
    + rewrite Hk. cbn [Gui.final Gui.game Gui.set_game Gui.canvas Gui.timers
        game_over cols rows snake score set_direction].
      split; [exact Halive|]. repeat (split; [reflexivity|]).
      right. destruct Hts as [E|E]; rewrite E in Hn |- *.
      * destruct n as [|[|n]]; try discriminate Hn. reflexivity.
      * destruct n; discriminate Hn.
    + lia.
Qed.

(** X17.  A window smaller than one cell in either direction gives a grid
    with a zero dimension, and the program is then stuck: the first expiry of
    the timer raises ZeroDivisionError in [tick] and schedules nothing, and
    whatever keys are pressed afterwards the snake never moves, the game is
    never over (so restart does nothing either), the score stays 0 and the
    canvas keeps its first frame. *)
Theorem zero_grid_stalls
  (r : nat) (width height cell_size : Z) (w0 : Gui.Window)
  (ins : list Gui.input) :
  Gui.__init__ r width height cell_size = inr w0 ->
  cols (Gui.game w0) = 0 \/ rows (Gui.game w0) = 0 ->
  (forall r', exists w1,
      Gui.dispatch (Gui.TimerFires 0 r') w0 = Gui.Failed ZeroDivisionError w1
      /\ Gui.timers w1 = []) /\
  game_over (Gui.game (Gui.run ins w0)) = false /\
  snake (Gui.game (Gui.run ins w0)) = snake (Gui.game w0) /\
  score (Gui.game (Gui.run ins w0)) = 0 /\
  Gui.canvas (Gui.run ins w0) = Gui.canvas w0 /\
  (Gui.timers (Gui.run ins w0) = [120] \/ Gui.timers (Gui.run ins w0) = []).
Proof.
  intros Hinit Hz.
  pose proof (window_inv_init _ _ _ _ _ Hinit) as Hw.
  destruct (gui_init_inr _ _ _ _ _ Hinit)
    as (_ & Hg & _ & _ & _ & _ & Ets & _).
  destruct (init_shape _ _ _ _ _ Hg) as (_ & _ & _ & _ & Halive & _ & Hsc).
  split.
  - intros r'. unfold Gui.dispatch, Gui.and_then, Gui.read, Gui.update.
    rewrite Ets. cbn [nth_error firstn skipn app].
    rewrite gui_tick_sim. cbn [Gui.game Gui.set_timers]. rewrite Halive.
    pose proof Hw as (_ & _ & _ & _ & Hi & _).
    destruct (tick_paths r' (Gui.game w0) Hi)
      as [[H _]|[(_ & _ & Hk)|(h & t & _ & _ & Hc & Hr & _)]].
    + congruence.
    + rewrite Hk. cbv beta iota. eexists. split; reflexivity.
    + lia.
  - rewrite <- Hsc.
    assert (Hts : Gui.timers w0 = [120] \/ Gui.timers w0 = []) by auto.
    clear Hinit Hg Ets Hsc. revert w0 Hw Halive Hz Hts.
    induction ins as [|i ins IH]; intros w0 Hw Halive Hz Hts;
      [simpl; auto|].
    simpl Gui.run.
    destruct (zero_grid_dispatch i w0 Hw Halive Hz Hts)
      as (Ha & Ec & Er & Es & Esc & Ecv & Et).
    rewrite <- Es, <- Esc, <- Ecv. apply IH.
    + apply window_inv_dispatch, Hw.
    + exact Ha.
    + rewrite Ec, Er. exact Hz.
    + exact Et.
Qed.

Lemma init_window_0x0 : Gui.__init__ 0 10 10 20 = inr Gui.window_0x0.
Proof. vm_compute. reflexivity. Qed.

Lemma zero_grid_stalls_witness :
  Gui.__init__ 0 10 10 20 = inr Gui.window_0x0 /\
  cols (Gui.game Gui.window_0x0) = 0 /\
  snake (Gui.game (Gui.run [Gui.TimerFires 0 0; Gui.KeyPress "r" 0]
                           Gui.window_0x0))
    = [(0, 0); (-1, 0); (-2, 0)].
Proof.
  split; [exact init_window_0x0|]. split; [reflexivity|].
  destruct (zero_grid_stalls 0 10 10 20 Gui.window_0x0
              [Gui.TimerFires 0 0; Gui.KeyPress "r"%string 0%nat]
              init_window_0x0 (or_introl eq_refl))
    as (_ & _ & Hs & _).
  exact Hs.
Defined.
